(** * py2c.tree.node_gen: the node-declaration compiler

    A shallow embedding of [src/py2c/tree/node_gen.py]: comment removal,
    the PLY lexer rules, the LALR driver restricted to the grammar given in
    the [p_*] docstrings together with the semantic actions, the source
    generator and the [generate] driver over a file store.

    Text is modelled as [string].  The lexer is modelled on ASCII text:
    [Chars.is_word] is [\w] on ASCII, where the pattern of the source also
    matches the letters and digits beyond ASCII, so what the model says of
    the lexer on a text is said of the code for a text of ASCII characters
    ([ascii_text], or a text that reads as declarations, whose names are
    runs of [Chars.is_word] characters). *)

From Stdlib Require Import Ascii String.
From stdpp Require Import gmap strings list.

Local Open Scope string_scope.
Local Open Scope list_scope.
Local Open Scope nat_scope.

(** ** Characters *)

Module Chars.

Definition newline : ascii := "010"%char.
Definition tab : ascii := "009"%char.
Definition carriage_return : ascii := "013"%char.
Definition hash : ascii := "#"%char.
Definition backslash : ascii := "\"%char.
Definition quote : ascii := "'"%char.
Definition dquote : ascii := "034"%char.

Definition between (lo hi : nat) (c : ascii) : bool :=
  (lo <=? nat_of_ascii c)%nat && (nat_of_ascii c <=? hi)%nat.

(** [\w] on ASCII: letters, digits and the underscore. *)
Definition is_word (c : ascii) : bool :=
  between 48 57 c || between 65 90 c || between 97 122 c || Ascii.eqb c "_".

(** [t_ignore = " \t"]. *)
Definition is_ignore (c : ascii) : bool :=
  Ascii.eqb c " " || Ascii.eqb c tab.

(** [literals = "()[]:*?+,"]. *)
Definition literals : list ascii :=
  ["("; ")"; "["; "]"; ":"; "*"; "?"; "+"; ","]%char.

Definition is_literal (c : ascii) : bool :=
  bool_decide (c ∈ literals).

End Chars.

(** ** Small string helpers (Python's [str.join], [startswith], [endswith]) *)

Fixpoint join (sep : string) (parts : list string) : string :=
  match parts with
  | [] => ""
  | [p] => p
  | p :: rest => p +:+ sep +:+ join sep rest
  end.

(** [strip_prefix p s] is the remainder of [s] after its prefix [p]. *)
Fixpoint strip_prefix (p s : string) : option string :=
  match p, s with
  | "", _ => Some s
  | String a p', String b s' =>
      if Ascii.eqb a b then strip_prefix p' s' else None
  | String _ _, "" => None
  end.

Definition startswith (s p : string) : bool :=
  bool_decide (is_Some (strip_prefix p s)).

(** [s.endswith(p)]: some suffix of [s] is [p]. *)
Fixpoint endswith (s p : string) : bool :=
  String.eqb s p ||
  match s with
  | "" => false
  | String _ s' => endswith s' p
  end.

(** [s[:-n]] for [0 < n]. *)
Definition drop_last (n : nat) (s : string) : string :=
  String.substring 0 (String.length s - n) s.

Fixpoint repeat_string (n : nat) (s : string) : string :=
  match n with
  | 0 => ""
  | S n' => s +:+ repeat_string n' s
  end.

(** ** [remove_comments]

    [re.sub(r"(?m)\#.*($|\n)", "", text)]: a match starts at a ['#'], [.*]
    runs to the end of the line ([.] excludes the newline only), and the
    group is satisfied by the empty [$] before that newline or at the end
    of the text, so the newline itself is kept. *)

Fixpoint strip_comments (in_comment : bool) (text : string) : string :=
  match text with
  | "" => ""
  | String c rest =>
      if in_comment then
        if Ascii.eqb c Chars.newline
        then String c (strip_comments false rest)
        else strip_comments true rest
      else if Ascii.eqb c Chars.hash
        then strip_comments true rest
        else String c (strip_comments false rest)
  end.

Definition remove_comments (text : string) : string :=
  strip_comments false text.

(** ** Tokens and errors *)

Inductive token : Type :=
  | INHERIT
  | NAME (value : string)
  | LITERAL (c : ascii).

#[global] Instance token_eq_dec : EqDecision token.
Proof. solve_decision. Defined.

(** Every failure of the parser is a [ParserError]; the constructors keep
    the data the message is formatted from.  [p_error] receives the
    offending token, or [None] at the end of the input. *)
Inductive ParserError : Type :=
  | UnableToGenerateTokens (rest : string)
  | UnexpectedToken (t : option token)
  | MultipleDeclarationsOfName (name : string)
  | MultipleDeclarationsOfAttributes (name : string) (duplicated : list string)
  | InheritingWithoutParent (name : string).

#[global] Instance ParserError_eq_dec : EqDecision ParserError.
Proof. solve_decision. Defined.

Inductive result (A : Type) : Type :=
  | Ok (a : A)
  | Raise (e : ParserError).
Arguments Ok {A} a.
Arguments Raise {A} e.

#[global] Instance result_ret : MRet result := λ A a, Ok a.
#[global] Instance result_bind : MBind result := λ A B k r,
  match r with
  | Ok a => k a
  | Raise e => Raise e
  end.

(** ** Lexer *)

(** What the parser receives when it asks for the next token: a token, or
    the text from which no token can be produced. *)
Inductive lexeme : Type :=
  | Token (t : token)
  | Illegal (rest : string).

(** The longest run of word characters at the head of the text, [\w+]. *)
Fixpoint span_word (s : string) : string * string :=
  match s with
  | "" => ("", "")
  | String c rest =>
      if Chars.is_word c
      then let '(w, r) := span_word rest in (String c w, r)
      else ("", s)
  end.

(** One turn of the lexer loop on the text that is left, [continue] being
    the turns that follow.  Ignored characters are skipped first; then the
    master pattern is tried, whose alternatives are the function rule
    [t_newline] followed by the string rules by decreasing pattern length,
    [inherit] before [\w+]; then the literals; otherwise [t_error] raises. *)
Definition lex_turn (continue : string → option (list lexeme)) (s : string)
  : option (list lexeme) :=
  match s with
  | "" => Some []
  | String c rest =>
      if Chars.is_ignore c then continue rest
      else if Ascii.eqb c Chars.newline then continue rest
      else match strip_prefix "inherit" s with
           | Some rest' => cons (Token INHERIT) <$> continue rest'
           | None =>
               if Chars.is_word c then
                 let '(w, rest') := span_word s in
                 cons (Token (NAME w)) <$> continue rest'
               else if Chars.is_literal c then
                 cons (Token (LITERAL c)) <$> continue rest
               else Some [Illegal s]
           end
  end.

(** Each turn consumes at least one character; the fuel bounds the number
    of turns. *)
Fixpoint lex_loop (fuel : nat) (s : string) : option (list lexeme) :=
  match fuel with
  | 0 => None
  | S fuel' => lex_turn (lex_loop fuel') s
  end.

Definition tokenize (s : string) : option (list lexeme) :=
  lex_loop (S (String.length s)) s.
Arguments tokenize : simpl never.


(** ** Data model *)

(** The four strings [p_modifier] can produce. *)
Inductive Modifier : Type :=
  | NEEDED
  | OPTIONAL
  | ONE_OR_MORE
  | ZERO_OR_MORE.

#[global] Instance Modifier_eq_dec : EqDecision Modifier.
Proof. solve_decision. Defined.

Definition modifier_name (m : Modifier) : string :=
  match m with
  | NEEDED => "NEEDED"
  | OPTIONAL => "OPTIONAL"
  | ONE_OR_MORE => "ONE_OR_MORE"
  | ZERO_OR_MORE => "ZERO_OR_MORE"
  end.

(** A field is the tuple [(name, type, modifier)]. *)
Definition Field : Type := string * string * Modifier.

(** The [fields] of a declaration: a list of fields, or the value of the
    [INHERIT] token, the string ['inherit']. *)
Inductive fields_value : Type :=
  | FieldList (li : list Field)
  | Inherit.

#[global] Instance fields_value_eq_dec : EqDecision fields_value.
Proof. solve_decision. Defined.

(** [collections.namedtuple("Definition", "name parent fields")]. *)
Record Definition_ : Type := mkDefinition {
  name : string;
  parent : option string;
  fields : fields_value;
}.

#[global] Instance Definition_eq_dec : EqDecision Definition_.
Proof. solve_decision. Defined.

(** ** Parser: semantic actions

    One function per [p_*] method; the alternatives of a production (told
    apart by [len(p)] in the source) are the cases of the argument. *)

Module Parser.

Definition p_modifier (p1 : option ascii) : Modifier :=
  match p1 with
  | Some c =>
      if Ascii.eqb c "+" then ONE_OR_MORE
      else if Ascii.eqb c "*" then ZERO_OR_MORE
      else if Ascii.eqb c "?" then OPTIONAL
      else NEEDED
  | None => NEEDED
  end.

(** [field : NAME modifier NAME], [p[0] = (p[3], p[1], p[2])]. *)
Definition p_field (p1 : string) (p2 : Modifier) (p3 : string) : Field :=
  (p3, p1, p2).

(** [more_fields_maybe : more_fields_maybe ',' field | empty]. *)
Definition p_more_fields_maybe (p : option (list Field * Field)) : list Field :=
  match p with
  | Some (p1, p3) => p1 ++ [p3]
  | None => []
  end.

(** [field_list : field more_fields_maybe ',' | field more_fields_maybe
    | empty]; the trailing comma does not enter the value. *)
Definition p_field_list (p : option (Field * list Field)) : list Field :=
  match p with
  | Some (p1, p2) => [p1] ++ p2
  | None => []
  end.

(** [fields : '[' field_list ']' | INHERIT]. *)
Definition p_fields (p : option (list Field)) : fields_value :=
  match p with
  | Some p2 => FieldList p2
  | None => Inherit
  end.

(** [colon_fields_opt : ':' fields | empty]. *)
Definition p_colon_fields_opt (p : option fields_value) : fields_value :=
  match p with
  | Some p2 => p2
  | None => FieldList []
  end.

(** [parent_class_opt : '(' NAME ')' | empty]. *)
Definition p_parent_class_opt (p : option string) : option string :=
  match p with
  | Some p2 => Some p2
  | None => None
  end.

(** The loop of [p_declaration] over the field names. *)
Fixpoint check_fields (li : list Field) (seen_fields duplicated_fields : list string)
  : list string * list string :=
  match li with
  | [] => (seen_fields, duplicated_fields)
  | (field_name, _, _) :: rest =>
      if bool_decide (field_name ∈ seen_fields)
      then check_fields rest seen_fields (duplicated_fields ++ [field_name])
      else check_fields rest (seen_fields ++ [field_name]) duplicated_fields
  end.

Definition duplicated_fields (li : list Field) : list string :=
  snd (check_fields li [] []).

(** [declaration : NAME parent_class_opt colon_fields_opt].  The state is
    the attribute [seen_node_names]; a name is added before the fields are
    looked at. *)
Definition p_declaration (seen_node_names : gset string)
    (name : string) (parent : option string) (fields : fields_value)
  : result (gset string * Definition_) :=
  if bool_decide (name ∈ seen_node_names) then
    Raise (MultipleDeclarationsOfName name)
  else
    let seen_node_names := seen_node_names ∪ {[name]} in
    match fields with
    | FieldList li =>
        match duplicated_fields li with
        | [] => Ok (seen_node_names, mkDefinition name parent fields)
        | dups => Raise (MultipleDeclarationsOfAttributes name dups)
        end
    | Inherit =>
        match parent with
        | None => Raise (InheritingWithoutParent name)
        | Some _ => Ok (seen_node_names, mkDefinition name parent fields)
        end
    end.

(** [zero_or_more_declaration : zero_or_more_declaration declaration
    | empty], a tuple that grows at its end. *)
Definition p_zero_or_more_declaration (p : option (list Definition_ * Definition_))
  : list Definition_ :=
  match p with
  | Some (p1, p2) => p1 ++ [p2]
  | None => []
  end.

Definition p_start (p1 : list Definition_) : list Definition_ := p1.

(** *** The LALR driver

    PLY builds the tables from the grammar in the docstrings.  The grammar
    has no conflict, and on it the driver behaves as follows: tokens are
    requested one at a time; a token that cannot follow what has been read
    is reported by [p_error] before any further action; a declaration is
    reduced (and [p_declaration] run) once the token after it has been
    obtained and is a [NAME] or the end of the input.  A [position] is the
    part of the current declaration already read, with the values the
    actions have produced for it. *)

Inductive position : Type :=
  | AtDeclaration
  | AfterName (n : string)
  | AfterLParen (n : string)
  | AfterParentName (n p : string)
  | AfterParent (n : string) (p : option string)
  | AfterColon (n : string) (p : option string)
  | AfterLBracket (n : string) (p : option string)
  | AfterType (n : string) (p : option string)
      (before : option (Field * list Field)) (ty : string)
  | AfterModifier (n : string) (p : option string)
      (before : option (Field * list Field)) (ty : string) (m : Modifier)
  | AfterField (n : string) (p : option string) (first : Field) (more : list Field)
  | AfterComma (n : string) (p : option string) (first : Field) (more : list Field)
  | AfterFields (n : string) (p : option string) (fs : fields_value).

Record state : Type := mkState {
  seen_node_names : gset string;
  declarations : list Definition_;
  at_position : position;
}.

(** [_reset], and the empty tuple of [zero_or_more_declaration : empty]. *)
Definition initial : state :=
  mkState ∅ (p_zero_or_more_declaration None) AtDeclaration.

(** The declaration that is complete at a position, if the next token
    allows the reduction: its name, parent and fields. *)
Definition completed (pos : position)
  : option (string * option string * fields_value) :=
  match pos with
  | AfterName n => Some (n, p_parent_class_opt None, p_colon_fields_opt None)
  | AfterParent n p => Some (n, p, p_colon_fields_opt None)
  | AfterFields n p fs => Some (n, p, p_colon_fields_opt (Some fs))
  | _ => None
  end.

(** Reduce [declaration] and then [zero_or_more_declaration]. *)
Definition reduce_declaration (st : state)
    (n : string) (p : option string) (fs : fields_value)
  : result (gset string * list Definition_) :=
  '(seen, d) ← p_declaration (seen_node_names st) n p fs;
  Ok (seen, p_zero_or_more_declaration (Some (declarations st, d))).

(** A field has been read: it is the first of its list, or it extends
    [more_fields_maybe]. *)
Definition field_read (n : string) (p : option string)
    (before : option (Field * list Field)) (f : Field) : position :=
  match before with
  | None => AfterField n p f (p_more_fields_maybe None)
  | Some (first, more) => AfterField n p first (p_more_fields_maybe (Some (more, f)))
  end.

Definition is_lit (t : token) (c : ascii) : bool :=
  match t with
  | LITERAL c' => Ascii.eqb c' c
  | _ => false
  end.

Definition step (st : state) (t : token) : result state :=
  let unexpected := Raise (UnexpectedToken (Some t)) in
  let move pos := Ok (mkState (seen_node_names st) (declarations st) pos) in
  match completed (at_position st), t with
  | Some (n, p, fs), NAME n' =>
      '(seen, decls) ← reduce_declaration st n p fs;
      Ok (mkState seen decls (AfterName n'))
  | _, _ =>
      match at_position st with
      | AtDeclaration =>
          match t with NAME n => move (AfterName n) | _ => unexpected end
      | AfterName n =>
          if is_lit t "(" then move (AfterLParen n)
          else if is_lit t ":" then move (AfterColon n (p_parent_class_opt None))
          else unexpected
      | AfterLParen n =>
          match t with NAME p => move (AfterParentName n p) | _ => unexpected end
      | AfterParentName n p =>
          if is_lit t ")" then move (AfterParent n (p_parent_class_opt (Some p)))
          else unexpected
      | AfterParent n p =>
          if is_lit t ":" then move (AfterColon n p) else unexpected
      | AfterColon n p =>
          match t with
          | INHERIT => move (AfterFields n p (p_fields None))
          | _ => if is_lit t "[" then move (AfterLBracket n p) else unexpected
          end
      | AfterLBracket n p =>
          match t with
          | NAME ty => move (AfterType n p None ty)
          | _ =>
              if is_lit t "]"
              then move (AfterFields n p (p_fields (Some (p_field_list None))))
              else unexpected
          end
      | AfterType n p before ty =>
          match t with
          | NAME nm => move (field_read n p before (p_field ty (p_modifier None) nm))
          | LITERAL c =>
              if is_lit t "?" || is_lit t "+" || is_lit t "*"
              then move (AfterModifier n p before ty (p_modifier (Some c)))
              else unexpected
          | _ => unexpected
          end
      | AfterModifier n p before ty m =>
          match t with
          | NAME nm => move (field_read n p before (p_field ty m nm))
          | _ => unexpected
          end
      | AfterField n p first more =>
          if is_lit t "," then move (AfterComma n p first more)
          else if is_lit t "]"
          then move (AfterFields n p (p_fields (Some (p_field_list (Some (first, more))))))
          else unexpected
      | AfterComma n p first more =>
          match t with
          | NAME ty => move (AfterType n p (Some (first, more)) ty)
          | _ =>
              if is_lit t "]"
              then move (AfterFields n p (p_fields (Some (p_field_list (Some (first, more))))))
              else unexpected
          end
      | AfterFields n p fs => unexpected
      end
  end.

(** The end of the input. *)
Definition finish (st : state) : result (list Definition_) :=
  match at_position st with
  | AtDeclaration => Ok (p_start (declarations st))
  | pos =>
      match completed pos with
      | Some (n, p, fs) =>
          '(_, decls) ← reduce_declaration st n p fs;
          Ok (p_start decls)
      | None => Raise (UnexpectedToken None)
      end
  end.

Fixpoint drive (st : state) (input : list lexeme) : result (list Definition_) :=
  match input with
  | [] => finish st
  | Illegal rest :: _ => Raise (UnableToGenerateTokens rest)
  | Token t :: input' => st' ← step st t; drive st' input'
  end.

Definition parse_tokens (input : list lexeme) : result (list Definition_) :=
  drive initial input.

(** [Parser.parse]: reset, remove the comments, lex and parse.  [None]
    would mean that the lexer loop ran out of fuel, which it never does
    (see [parse_total]). *)
Definition parse (text : string) : option (result (list Definition_)) :=
  parse_tokens <$> tokenize (remove_comments text).

End Parser.

(** ** [repr] of a string and the error messages

    Python's [repr] on ASCII text: single quotes unless the text holds a
    single quote and no double quote; backslash, the chosen quote, tab,
    newline and carriage return are escaped, other control characters are
    written in hexadecimal. *)

Module Repr.

Definition hex_digit (n : nat) : ascii :=
  nth n ["0"; "1"; "2"; "3"; "4"; "5"; "6"; "7"; "8"; "9";
         "a"; "b"; "c"; "d"; "e"; "f"]%char "0"%char.

Fixpoint contains (c : ascii) (s : string) : bool :=
  match s with
  | "" => false
  | String d rest => Ascii.eqb c d || contains c rest
  end.

Definition quote_for (s : string) : ascii :=
  if contains Chars.quote s && negb (contains Chars.dquote s)
  then Chars.dquote else Chars.quote.

Definition escape (q c : ascii) : string :=
  let bs := String Chars.backslash "" in
  if Ascii.eqb c Chars.backslash then bs +:+ bs
  else if Ascii.eqb c q then bs +:+ String q ""
  else if Ascii.eqb c Chars.tab then bs +:+ "t"
  else if Ascii.eqb c Chars.newline then bs +:+ "n"
  else if Ascii.eqb c Chars.carriage_return then bs +:+ "r"
  else if (nat_of_ascii c <? 32)%nat || (nat_of_ascii c =? 127)%nat then
    bs +:+ "x" +:+ String (hex_digit (nat_of_ascii c / 16))
                     (String (hex_digit (nat_of_ascii c mod 16)) "")
  else String c "".

Fixpoint escape_all (q : ascii) (s : string) : string :=
  match s with
  | "" => ""
  | String c rest => escape q c +:+ escape_all q rest
  end.

Definition repr (s : string) : string :=
  let q := quote_for s in
  String q (escape_all q s) +:+ String q "".

End Repr.

(** The text of the exception for the three checks of [p_declaration]. *)
Definition message (e : ParserError) : option string :=
  match e with
  | MultipleDeclarationsOfName name =>
      Some ("Multiple declarations of name " +:+ Repr.repr name)
  | MultipleDeclarationsOfAttributes name duplicated =>
      Some ("Multiple declarations in " +:+ Repr.repr name +:+ " of attribute"
            +:+ (if bool_decide (1 < length duplicated) then "s" else "")
            +:+ " " +:+ Repr.repr (join ", " duplicated))
  | InheritingWithoutParent name =>
      Some ("Inheriting nodes need parents to inherit from. See definition of "
            +:+ Repr.repr name)
  | _ => None
  end.

(** ** Source generator *)

Definition nl : string := String Chars.newline "".

Definition indent : string := repeat_string 4 " ".

Definition prettify_field (f : Field) : string :=
  let '(name, type_, modifier) := f in
  repeat_string 3 indent +:+ "(" +:+ Repr.repr name +:+ ", " +:+ type_ +:+ ", "
    +:+ Repr.repr (modifier_name modifier) +:+ "),".

Definition _prettify_list (li : list Field) : string :=
  match li with
  | [] => "[]"
  | _ => join nl (["["] ++ map prettify_field li ++ [repeat_string 2 indent +:+ "]"])
  end.

Module SourceGenerator.

(** [definition.parent or "object"]: [None] and the empty string are both
    replaced. *)
Definition parent_or_object (parent : option string) : string :=
  match parent with
  | Some p => if bool_decide (p = "") then "object" else p
  | None => "object"
  end.

Definition generate_class (definition : Definition_) : string :=
  let class_declaration :=
    "class " +:+ name definition +:+ "("
      +:+ parent_or_object (parent definition) +:+ "):" +:+ nl in
  let field_declaration :=
    match fields definition with
    | Inherit => "    pass"
    | FieldList li =>
        "    @fields_decorator" +:+ nl +:+
        "    def _fields(cls):" +:+ nl +:+
        "        return " +:+ _prettify_list li
    end in
  class_declaration +:+ field_declaration.

Definition generate_sources (data : list Definition_) : string :=
  join (nl +:+ nl +:+ nl) (map generate_class data).

End SourceGenerator.

Definition rule : string :=
  "# -----------------------------------------------------------------------------".

Definition PREFIX : string :=
  join nl [
    rule;
    "# This file is auto-generated by ``py2c.tree.node_gen``.";
    "#";
    "# Instead of modifying this file, modify the relevant "
      +:+ String Chars.dquote "*.tree" +:+ String Chars.dquote " file";
    "# in py2c/tree directory of the source distribution.";
    rule;
    "# ANY CHANGES YOU MAKE IN THIS FILE DIRECTLY WILL BE LOST.";
    rule;
    "";
    "from . import Node, identifier, fields_decorator  # noqa"
  ].

(** ** [generate]

    The file system is a finite map from paths to the characters of the
    files, [listing] is what [os.listdir] returns for the source directory
    and [writable] tells of a path whether [open(path, "w+t")] succeeds on
    it (it fails with an [OSError] when the directory is missing or may not
    be written to, or when the path is a directory); a run changes the
    content of files only, so [writable] is the same all along.  Paths are
    joined and lines end as on POSIX.  The notifications printed by
    [report] are left out.  A run ends with the files as they are at that
    moment, and with the exception if one was raised. *)

Inductive GenerateError : Type :=
  | CouldNotAutoGenerate (infile_name : string)
  | NoSuchFile (path : string)
  | CannotOpenOutput (path : string).

(** [os.path.join] of two components. *)
Definition path_join (a b : string) : string :=
  if startswith b "/" then b
  else if bool_decide (a = "") || endswith a "/" then a +:+ b
  else a +:+ "/" +:+ b.

Definition infile_name (source_dir fname : string) : string :=
  path_join source_dir fname.

Definition outfile_name (output_dir fname : string) : string :=
  path_join output_dir (drop_last 5 fname +:+ ".py").

(** What [infile.read()] returns for a file opened with ["rt"]: with
    universal newlines a carriage return, alone or followed by a newline,
    is read as one newline. *)
Fixpoint universal_newlines (content : string) : string :=
  match content with
  | "" => ""
  | String c rest =>
      if Ascii.eqb c Chars.carriage_return then
        String Chars.newline
          match rest with
          | "" => ""
          | String d rest' =>
              if Ascii.eqb d Chars.newline then universal_newlines rest'
              else universal_newlines rest
          end
      else String c (universal_newlines rest)
  end.

(** The four [write] calls on the output file. *)
Definition output_text (sources : string) : string :=
  PREFIX +:+ (nl +:+ nl +:+ nl) +:+ sources +:+ nl.

(** One turn of the loop over [files_to_convert].  The input is opened and
    read outside the [try]; whatever parsing or generating raises becomes
    the exception that names the input file; the output is opened once the
    sources have been generated, and the exception of [open] is not
    caught. *)
Definition convert (source_dir output_dir : string) (update : bool)
    (writable : string → bool) (fs : gmap string string) (fname : string)
  : gmap string string * option GenerateError :=
  let infile := infile_name source_dir fname in
  let outfile := outfile_name output_dir fname in
  if bool_decide (is_Some (fs !! outfile)) && negb update then (fs, None)
  else
    match fs !! infile with
    | None => (fs, Some (NoSuchFile infile))
    | Some content =>
        let text := universal_newlines content in
        match Parser.parse text with
        | Some (Ok data) =>
            let sources := SourceGenerator.generate_sources data in
            if writable outfile
            then (<[outfile := output_text sources]> fs, None)
            else (fs, Some (CannotOpenOutput outfile))
        | _ => (fs, Some (CouldNotAutoGenerate infile))
        end
    end.

Fixpoint convert_all (source_dir output_dir : string) (update : bool)
    (writable : string → bool) (fs : gmap string string)
    (files_to_convert : list string)
  : gmap string string * option GenerateError :=
  match files_to_convert with
  | [] => (fs, None)
  | fname :: rest =>
      match convert source_dir output_dir update writable fs fname with
      | (fs', None) => convert_all source_dir output_dir update writable fs' rest
      | (fs', Some e) => (fs', Some e)
      end
  end.

Definition generate (source_dir : string) (output_dir : option string)
    (update : bool) (listing : list string) (writable : string → bool)
    (fs : gmap string string)
  : gmap string string * option GenerateError :=
  let output_dir := default source_dir output_dir in
  let files_to_convert := filter (λ fname, endswith fname ".tree" = true) listing in
  convert_all source_dir output_dir update writable fs files_to_convert.

(** ** The surface syntax of declarations

    The sentences of the grammar in the docstrings, as trees, with the
    tokens they are written with and the values the actions give them. *)

Module Syntax.

Inductive suffix : Type :=
  | NoSuffix
  | Question
  | Plus
  | Star.

Definition suffix_char (s : suffix) : option ascii :=
  match s with
  | NoSuffix => None
  | Question => Some "?"%char
  | Plus => Some "+"%char
  | Star => Some "*"%char
  end.

(** [field : NAME modifier NAME]. *)
Record field : Type := mkField {
  f_type : string;
  f_suffix : suffix;
  f_name : string;
}.

(** [colon_fields_opt]: nothing, [: []], [: [f, ..., g]] with or without a
    comma before the bracket, or [: inherit]. *)
Inductive body : Type :=
  | NoClause
  | EmptyList
  | Fields (first : field) (more : list field) (trailing_comma : bool)
  | InheritForm.

(** [declaration : NAME parent_class_opt colon_fields_opt]. *)
Record declaration : Type := mkDeclaration {
  d_name : string;
  d_parent : option string;
  d_body : body;
}.

Definition field_tokens (f : field) : list token :=
  [NAME (f_type f)]
  ++ match suffix_char (f_suffix f) with Some c => [LITERAL c] | None => [] end
  ++ [NAME (f_name f)].

Definition body_tokens (b : body) : list token :=
  match b with
  | NoClause => []
  | EmptyList => [LITERAL ":"; LITERAL "["; LITERAL "]"]
  | Fields first more trailing_comma =>
      [LITERAL ":"; LITERAL "["] ++ field_tokens first
      ++ flat_map (λ f, LITERAL "," :: field_tokens f) more
      ++ (if trailing_comma then [LITERAL ","] else [])
      ++ [LITERAL "]"]
  | InheritForm => [LITERAL ":"; INHERIT]
  end.

Definition declaration_tokens (d : declaration) : list token :=
  [NAME (d_name d)]
  ++ match d_parent d with
     | Some p => [LITERAL "("; NAME p; LITERAL ")"]
     | None => []
     end
  ++ body_tokens (d_body d).

Definition tokens (ds : list declaration) : list lexeme :=
  Token <$> flat_map declaration_tokens ds.

(** A text for the tokens: each token is followed by a space, each
    declaration by a newline. *)
Definition token_text (t : token) : string :=
  match t with
  | INHERIT => "inherit"
  | NAME v => v
  | LITERAL c => String c ""
  end.

Fixpoint write (ts : list token) : string :=
  match ts with
  | [] => ""
  | t :: ts' => token_text t +:+ " " +:+ write ts'
  end.

Fixpoint text (ds : list declaration) : string :=
  match ds with
  | [] => ""
  | d :: ds' => write (declaration_tokens d) +:+ nl +:+ text ds'
  end.

(** The texts the lexer returns as one [NAME]: word characters, at least
    one, not beginning with the keyword. *)
Fixpoint all_word (s : string) : bool :=
  match s with
  | "" => true
  | String c rest => Chars.is_word c && all_word rest
  end.

Definition is_name (s : string) : bool :=
  negb (String.eqb s "") && all_word s && negb (startswith s "inherit").

Definition lexable (t : token) : bool :=
  match t with
  | INHERIT => true
  | NAME v => is_name v
  | LITERAL c => Chars.is_literal c
  end.

Definition well_named (d : declaration) : Prop :=
  Forall (λ t, lexable t = true) (declaration_tokens d).

(** The values of the actions. *)
Definition modifier_of (s : suffix) : Modifier :=
  Parser.p_modifier (suffix_char s).

Definition field_of (f : field) : Field :=
  Parser.p_field (f_type f) (modifier_of (f_suffix f)) (f_name f).

Definition body_fields (b : body) : list field :=
  match b with
  | Fields first more _ => first :: more
  | _ => []
  end.

Definition fields_of (b : body) : fields_value :=
  match b with
  | InheritForm => Inherit
  | _ => FieldList (field_of <$> body_fields b)
  end.

End Syntax.

(** The checks of [p_declaration] run over declarations in order, as the
    parser does on a text without syntax error. *)
Fixpoint declare_all (seen : gset string) (acc : list Definition_)
    (ds : list Syntax.declaration) : result (list Definition_) :=
  match ds with
  | [] => Ok acc
  | d :: rest =>
      '(seen', def) ← Parser.p_declaration seen (Syntax.d_name d)
                        (Syntax.d_parent d) (Syntax.fields_of (Syntax.d_body d));
      declare_all seen' (acc ++ [def]) rest
  end.

(** The position reached when the tokens of a declaration have been read. *)
Definition position_after (d : Syntax.declaration) : Parser.position :=
  match Syntax.d_body d with
  | Syntax.NoClause =>
      match Syntax.d_parent d with
      | None => Parser.AfterName (Syntax.d_name d)
      | Some p => Parser.AfterParent (Syntax.d_name d) (Some p)
      end
  | b => Parser.AfterFields (Syntax.d_name d) (Syntax.d_parent d) (Syntax.fields_of b)
  end.

(** Comment removal in the words of the specification, to be compared with
    [remove_comments]: in every line, what begins at the first ['#'] and
    runs to the end of the line is dropped. *)
Fixpoint split_lines (s : string) : list string :=
  match s with
  | "" => [""]
  | String c rest =>
      if Ascii.eqb c Chars.newline then "" :: split_lines rest
      else match split_lines rest with
           | line :: more => String c line :: more
           | [] => [String c ""]
           end
  end.

Fixpoint cut_comment (line : string) : string :=
  match line with
  | "" => ""
  | String c rest =>
      if Ascii.eqb c Chars.hash then "" else String c (cut_comment rest)
  end.

Definition without_comments (text : string) : string :=
  join nl (cut_comment <$> split_lines text).

(** The text reads as the declarations [ds]: once its comments are
    removed, the lexer returns the tokens of [ds]. *)
Definition reads (text : string) (ds : list Syntax.declaration) : Prop :=
  tokenize (remove_comments text) = Some (Syntax.tokens ds).

(** The [Definition] a declaration stands for. *)
Definition definition_of (d : Syntax.declaration) : Definition_ :=
  mkDefinition (Syntax.d_name d) (Syntax.d_parent d)
    (Syntax.fields_of (Syntax.d_body d)).

Definition field_name (f : Field) : string := f.1.1.

(** [t] is a part of the text [s]. *)
Definition occurs_in (t s : string) : Prop :=
  ∃ before after, s = before +:+ t +:+ after.

(** The last character of a text. *)
Fixpoint last_char (s : string) : option ascii :=
  match s with
  | "" => None
  | String c "" => Some c
  | String _ s' => last_char s'
  end.

(** A name a directory listing can hold for a declaration file. *)
Definition convertible (fname : string) : Prop :=
  endswith fname ".tree" = true ∧ startswith fname "/" = false.

(** How many times [x] occurs in [l]. *)
Definition occurrences (x : string) (l : list string) : nat :=
  length (filter (λ y, y = x) l).

(** The checks a declaration has to pass whatever the declarations before
    it are: its field names differ from each other, or, in the inherit
    form, it has a parent. *)
Definition passes_own_checks (d : Syntax.declaration) : Prop :=
  match Syntax.d_body d with
  | Syntax.InheritForm => is_Some (Syntax.d_parent d)
  | b => NoDup (Syntax.f_name <$> Syntax.body_fields b)
  end.

(** A text without newline, and a text of characters that [repr] writes as
    they are between single quotes: word characters, the comma and the
    space. *)
Definition one_line (s : string) : Prop :=
  Repr.contains Chars.newline s = false.

Fixpoint all_plain (s : string) : bool :=
  match s with
  | "" => true
  | String c rest =>
      (Chars.is_word c || Ascii.eqb c "," || Ascii.eqb c " ") && all_plain rest
  end.

(** [rest] is what is left of [s] at some point. *)
Definition suffix_of (rest s : string) : Prop :=
  ∃ before, s = before +:+ rest.

(** What the turns of the lexer return from a point of the text on. *)
Definition tokens_then_error (s : string) (l : list lexeme) : Prop :=
  ∃ ts tail,
    l = (Token <$> ts) ++ tail
    ∧ Forall (λ t, Syntax.lexable t = true) ts
    ∧ (tail = [] ∨
       ∃ c rest,
         tail = [Illegal (String c rest)]
         ∧ suffix_of (String c rest) s
         ∧ Chars.is_ignore c = false ∧ c ≠ Chars.newline
         ∧ Chars.is_word c = false ∧ Chars.is_literal c = false).


(** The moves of [Parser.step] that reduce no declaration: from a
    position, on a token, to the next position. *)
Inductive shifts : Parser.position → token → Parser.position → Prop :=
  | shift_name n :
      shifts Parser.AtDeclaration (NAME n) (Parser.AfterName n)
  | shift_lparen n :
      shifts (Parser.AfterName n) (LITERAL "(") (Parser.AfterLParen n)
  | shift_colon_after_name n :
      shifts (Parser.AfterName n) (LITERAL ":") (Parser.AfterColon n None)
  | shift_parent n p :
      shifts (Parser.AfterLParen n) (NAME p) (Parser.AfterParentName n p)
  | shift_rparen n p :
      shifts (Parser.AfterParentName n p) (LITERAL ")")
        (Parser.AfterParent n (Some p))
  | shift_colon n p :
      shifts (Parser.AfterParent n p) (LITERAL ":") (Parser.AfterColon n p)
  | shift_inherit n p :
      shifts (Parser.AfterColon n p) INHERIT (Parser.AfterFields n p Inherit)
  | shift_lbracket n p :
      shifts (Parser.AfterColon n p) (LITERAL "[") (Parser.AfterLBracket n p)
  | shift_rbracket_empty n p :
      shifts (Parser.AfterLBracket n p) (LITERAL "]")
        (Parser.AfterFields n p (FieldList []))
  | shift_type_first n p ty :
      shifts (Parser.AfterLBracket n p) (NAME ty) (Parser.AfterType n p None ty)
  | shift_suffix n p before ty s :
      s ≠ Syntax.NoSuffix →
      shifts (Parser.AfterType n p before ty)
        (LITERAL (default " "%char (Syntax.suffix_char s)))
        (Parser.AfterModifier n p before ty (Syntax.modifier_of s))
  | shift_field_name n p before ty nm :
      shifts (Parser.AfterType n p before ty) (NAME nm)
        (Parser.field_read n p before (nm, ty, NEEDED))
  | shift_field_name_after_suffix n p before ty m nm :
      shifts (Parser.AfterModifier n p before ty m) (NAME nm)
        (Parser.field_read n p before (nm, ty, m))
  | shift_comma n p first more :
      shifts (Parser.AfterField n p first more) (LITERAL ",")
        (Parser.AfterComma n p first more)
  | shift_rbracket n p first more :
      shifts (Parser.AfterField n p first more) (LITERAL "]")
        (Parser.AfterFields n p (FieldList (first :: more)))
  | shift_rbracket_after_comma n p first more :
      shifts (Parser.AfterComma n p first more) (LITERAL "]")
        (Parser.AfterFields n p (FieldList (first :: more)))
  | shift_type_next n p first more ty :
      shifts (Parser.AfterComma n p first more) (NAME ty)
        (Parser.AfterType n p (Some (first, more)) ty).

(** The invariants of a [Definition]: the inherit marker comes with a
    parent, the names of a field list differ from each other. *)
Definition valid_definition (def : Definition_) : Prop :=
  match fields def with
  | Inherit => is_Some (parent def)
  | FieldList li => NoDup (field_name <$> li)
  end.

(** What the parser has checked of the declarations reduced so far: the
    names seen are their names, which differ from each other, and each
    is valid. *)
Definition checked (st : Parser.state) : Prop :=
  Parser.seen_node_names st = list_to_set (name <$> Parser.declarations st)
  ∧ NoDup (name <$> Parser.declarations st)
  ∧ Forall valid_definition (Parser.declarations st).


(** The tokens read since the current declaration began, as they stand to
    a position of the parser. *)
Definition head_tokens (n : string) (p : option string) : list token :=
  NAME n :: match p with
            | Some p => [LITERAL "("; NAME p; LITERAL ")"]
            | None => []
            end.

Definition list_tokens (f : Syntax.field) (fs : list Syntax.field) : list token :=
  Syntax.field_tokens f ++ flat_map (λ g, LITERAL "," :: Syntax.field_tokens g) fs.

Definition started (before : option (Field * list Field)) (l : list token) : Prop :=
  match before with
  | None => l = []
  | Some (first, more) =>
      ∃ f fs, first = Syntax.field_of f ∧ more = Syntax.field_of <$> fs
              ∧ l = list_tokens f fs ++ [LITERAL ","]
  end.

Definition reading (pos : Parser.position) (toks : list token) : Prop :=
  match pos with
  | Parser.AtDeclaration => toks = []
  | Parser.AfterName n => toks = head_tokens n None
  | Parser.AfterLParen n => toks = [NAME n; LITERAL "("]
  | Parser.AfterParentName n p => toks = [NAME n; LITERAL "("; NAME p]
  | Parser.AfterParent n p => is_Some p ∧ toks = head_tokens n p
  | Parser.AfterColon n p => toks = head_tokens n p ++ [LITERAL ":"]
  | Parser.AfterLBracket n p => toks = head_tokens n p ++ [LITERAL ":"; LITERAL "["]
  | Parser.AfterType n p before ty =>
      ∃ l, started before l
           ∧ toks = head_tokens n p ++ [LITERAL ":"; LITERAL "["] ++ l ++ [NAME ty]
  | Parser.AfterModifier n p before ty m =>
      ∃ l s, started before l ∧ s ≠ Syntax.NoSuffix ∧ m = Syntax.modifier_of s
             ∧ toks = head_tokens n p ++ [LITERAL ":"; LITERAL "["] ++ l
                      ++ [NAME ty; LITERAL (default " "%char (Syntax.suffix_char s))]
  | Parser.AfterField n p first more =>
      ∃ f fs, first = Syntax.field_of f ∧ more = Syntax.field_of <$> fs
              ∧ toks = head_tokens n p ++ [LITERAL ":"; LITERAL "["] ++ list_tokens f fs
  | Parser.AfterComma n p first more =>
      ∃ f fs, first = Syntax.field_of f ∧ more = Syntax.field_of <$> fs
              ∧ toks = head_tokens n p ++ [LITERAL ":"; LITERAL "["]
                       ++ list_tokens f fs ++ [LITERAL ","]
  | Parser.AfterFields n p fv =>
      ∃ b, b ≠ Syntax.NoClause ∧ fv = Syntax.fields_of b
           ∧ toks = head_tokens n p ++ Syntax.body_tokens b
  end.

(** What has been read is a sequence of whole declarations, reduced, and
    the beginning of one more. *)
Definition reads_so_far (consumed : list token) (st : Parser.state) : Prop :=
  ∃ ds toks,
    consumed = flat_map Syntax.declaration_tokens ds ++ toks
    ∧ reading (Parser.at_position st) toks
    ∧ Parser.declarations st = definition_of <$> ds.

(** A [Definition] all of whose names are names the lexer can return. *)
Definition proper_definition (def : Definition_) : Prop :=
  Syntax.is_name (name def) = true
  ∧ (∀ p, parent def = Some p → Syntax.is_name p = true)
  ∧ (∀ li, fields def = FieldList li →
       Forall (λ f : Field, Syntax.is_name f.1.1 = true
                            ∧ Syntax.is_name f.1.2 = true) li).

(** The header of the class of a definition and the body written with
    plain quotes, and the lines of a text that begin a class. *)
Definition class_header (def : Definition_) : string :=
  "class " +:+ name def +:+ "(" +:+ default "object" (parent def) +:+ "):".

Definition plain_field_line (f : Field) : string :=
  "            ('" +:+ f.1.1 +:+ "', " +:+ f.1.2 +:+ ", '"
  +:+ modifier_name f.2 +:+ "'),".

Definition plain_body (fs : fields_value) : string :=
  match fs with
  | Inherit => "    pass"
  | FieldList li =>
      "    @fields_decorator" +:+ nl
      +:+ "    def _fields(cls):" +:+ nl
      +:+ "        return "
      +:+ match li with
          | [] => "[]"
          | _ => join nl (["["] ++ (plain_field_line <$> li) ++ ["        ]"])
          end
  end.

Definition class_lines (s : string) : list string :=
  filter (λ line, startswith line "class " = true) (split_lines s).

(** The error of a declaration that follows the declarations [pre] and
    fails a check: the name first, then the fields or the parent. *)
Definition violation (pre : list Syntax.declaration) (d : Syntax.declaration)
  : ParserError :=
  if bool_decide (Syntax.d_name d ∈ Syntax.d_name <$> pre) then
    MultipleDeclarationsOfName (Syntax.d_name d)
  else
    match Syntax.d_body d with
    | Syntax.InheritForm => InheritingWithoutParent (Syntax.d_name d)
    | b => MultipleDeclarationsOfAttributes (Syntax.d_name d)
             (Parser.duplicated_fields (Syntax.field_of <$> Syntax.body_fields b))
    end.




(** A text of ASCII characters, on which [Chars.is_word] is the word class
    of the pattern of the source. *)
Fixpoint ascii_text (s : string) : bool :=
  match s with
  | "" => true
  | String c rest => (nat_of_ascii c <? 128)%nat && ascii_text rest
  end.

(** * Properties *)

(** ** The pipeline on small texts *)

Example parse_three_declarations :
  Parser.parse "Module: [stmt* body]
Statement(Module): inherit   # nothing of its own
Assign(Statement): [expr target, expr value,]"
  = Some (Ok [mkDefinition "Module" None (FieldList [("body", "stmt", ZERO_OR_MORE)]);
              mkDefinition "Statement" (Some "Module") Inherit;
              mkDefinition "Assign" (Some "Statement")
                (FieldList [("target", "expr", NEEDED); ("value", "expr", NEEDED)])]).
Proof. vm_compute. reflexivity. Qed.

(** The keyword rule comes before the identifier rule. *)
Example keyword_before_identifier :
  tokenize "inherited myinherit"
  = Some [Token INHERIT; Token (NAME "ed"); Token (NAME "myinherit")].
Proof. vm_compute. reflexivity. Qed.

Example illegal_character :
  Parser.parse "A: [int $x]" = Some (Raise (UnableToGenerateTokens "$x]")).
Proof. vm_compute. reflexivity. Qed.

(** A token that cannot follow is reported before the declaration it ends
    is checked. *)
Example unexpected_token_first :
  Parser.parse "A A ]" = Some (Raise (UnexpectedToken (Some (LITERAL "]")))).
Proof. vm_compute. reflexivity. Qed.

(** Of several violations, the first in the order of the text is raised. *)
Example first_violation_raised :
  Parser.parse "B: inherit
A
A"
  = Some (Raise (InheritingWithoutParent "B"))
  ∧ Parser.parse "A
A: [int x, int x]"
    = Some (Raise (MultipleDeclarationsOfName "A")).
Proof. split; vm_compute; reflexivity. Qed.

Example generated_class_texts :
  SourceGenerator.generate_sources
    [mkDefinition "Statement" (Some "Module") Inherit;
     mkDefinition "Assign" (Some "Statement")
       (FieldList [("target", "expr", NEEDED); ("value", "expr", OPTIONAL)])]
  = "class Statement(Module):
    pass


class Assign(Statement):
    @fields_decorator
    def _fields(cls):
        return [
            ('target', expr, 'NEEDED'),
            ('value', expr, 'OPTIONAL'),
        ]".
Proof. vm_compute. reflexivity. Qed.

(** [generate_sources] only joins the classes: its text does not end with
    a newline, the one at the end of the file is written by [generate]. *)
Example generate_sources_last_character :
  last_char (SourceGenerator.generate_sources [mkDefinition "Leaf" None (FieldList [])])
  = Some "]"%char
  ∧ last_char (output_text
                 (SourceGenerator.generate_sources
                    [mkDefinition "Leaf" None (FieldList [])]))
    = Some Chars.newline.
Proof. split; vm_compute; reflexivity. Qed.


Section driver.
Import Parser Syntax.

Lemma completed_position_after d :
  completed (position_after d) = Some (d_name d, d_parent d, fields_of (d_body d)).
Proof. by destruct d as [n [p|] []]. Qed.

Lemma drive_field seen acc n p pos before f rest :
  pos = AfterLBracket n p ∧ before = None ∨
  (∃ first more, pos = AfterComma n p first more ∧ before = Some (first, more)) →
  drive (mkState seen acc pos) ((Token <$> field_tokens f) ++ rest)
  = drive (mkState seen acc (field_read n p before (field_of f))) rest.
Proof.
  intros [[-> ->]|(first & more & -> & ->)];
    destruct f as [ty [] nm]; reflexivity.
Qed.

Lemma drive_step st t st' l :
  step st t = Ok st' → drive st (Token t :: l) = drive st' l.
Proof.
  intros H.
  change (drive st (Token t :: l)) with (step st t ≫= λ s, drive s l).
  by rewrite H.
Qed.

Lemma drive_more_fields seen acc n p first more0 more rest :
  drive (mkState seen acc (AfterField n p first more0))
    ((Token <$> flat_map (λ f, LITERAL "," :: field_tokens f) more) ++ rest)
  = drive (mkState seen acc (AfterField n p first (more0 ++ (field_of <$> more)))) rest.
Proof.
  revert more0. induction more as [|f more IH]; intros more0.
  - simpl. by rewrite app_nil_r.
  - change (flat_map ?g (f :: more))
      with ((LITERAL "," :: field_tokens f) ++ flat_map g more).
    rewrite fmap_app, <- app_assoc, fmap_cons, <- app_comm_cons.
    erewrite drive_step by reflexivity.
    rewrite (drive_field seen acc n p _ (Some (first, more0))) by eauto.
    simpl field_read. rewrite IH.
    by rewrite fmap_cons, <- app_assoc.
Qed.

Lemma drive_body seen acc pos d rest :
  pos = match d_parent d with
        | None => AfterName (d_name d)
        | Some p => AfterParent (d_name d) (Some p)
        end →
  drive (mkState seen acc pos) ((Token <$> body_tokens (d_body d)) ++ rest)
  = drive (mkState seen acc (position_after d)) rest.
Proof.
  intros ->. destruct d as [n p b]. unfold position_after. simpl d_body.
  simpl d_parent. simpl d_name.
  destruct b as [| |first more tc|].
  - by destruct p.
  - by destruct p.
  - unfold body_tokens.
    rewrite !fmap_app. repeat rewrite <- app_assoc.
    assert (drive (mkState seen acc match p with
                                    | Some p0 => AfterParent n (Some p0)
                                    | None => AfterName n
                                    end)
              ((Token <$> [LITERAL ":"; LITERAL "["]) ++
               (Token <$> field_tokens first) ++
               (Token <$> flat_map (λ f, LITERAL "," :: field_tokens f) more) ++
               (Token <$> (if tc then [LITERAL ","] else [])) ++
               (Token <$> [LITERAL "]"]) ++ rest)
            = drive (mkState seen acc (AfterLBracket n p))
              ((Token <$> field_tokens first) ++
               (Token <$> flat_map (λ f, LITERAL "," :: field_tokens f) more) ++
               (Token <$> (if tc then [LITERAL ","] else [])) ++
               (Token <$> [LITERAL "]"]) ++ rest)) as -> by by destruct p.
    rewrite (drive_field seen acc n p _ None) by eauto.
    simpl field_read. rewrite drive_more_fields.
    destruct tc; reflexivity.
  - by destruct p.
Qed.

Lemma drive_declaration seen acc d rest :
  drive (mkState seen acc AtDeclaration) ((Token <$> declaration_tokens d) ++ rest)
  = drive (mkState seen acc (position_after d)) rest.
Proof.
  unfold declaration_tokens.
  rewrite !fmap_app, <- !app_assoc.
  rewrite <- (drive_body seen acc _ d rest eq_refl).
  by destruct (d_parent d).
Qed.

Lemma drive_next_declaration seen acc pos n p fs d rest :
  completed pos = Some (n, p, fs) →
  drive (mkState seen acc pos) ((Token <$> declaration_tokens d) ++ rest)
  = '(seen', def) ← p_declaration seen n p fs;
    drive (mkState seen' (acc ++ [def]) (position_after d)) rest.
Proof.
  intros Hpos. unfold declaration_tokens.
  rewrite !fmap_app, <- !app_assoc.
  change (drive ?st ((Token <$> [NAME ?x]) ++ ?l))
    with (step st (NAME x) ≫= λ s, drive s l).
  unfold step. simpl at_position. rewrite Hpos.
  unfold reduce_declaration. simpl seen_node_names. simpl declarations.
  destruct (p_declaration seen n p fs) as [[seen' def]|e]; [|done].
  simpl.
  rewrite <- (drive_body seen' (acc ++ [def]) _ d rest eq_refl).
  by destruct (d_parent d).
Qed.

Lemma drive_completed seen acc pos n p fs ds :
  completed pos = Some (n, p, fs) →
  drive (mkState seen acc pos) (tokens ds)
  = '(seen', def) ← p_declaration seen n p fs; declare_all seen' (acc ++ [def]) ds.
Proof.
  revert seen acc pos n p fs.
  induction ds as [|d ds IH]; intros seen acc pos n p fs Hpos.
  - change (drive ?st (tokens [])) with (finish st).
    unfold finish, reduce_declaration.
    destruct pos; try done; simpl in Hpos; simplify_eq; simpl;
      by destruct (p_declaration _ _ _ _) as [[??]|?].
  - change (tokens (d :: ds))
      with (Token <$> (declaration_tokens d ++ flat_map declaration_tokens ds)).
    rewrite fmap_app. fold (tokens ds).
    rewrite (drive_next_declaration _ _ _ _ _ _ _ _ Hpos).
    destruct (p_declaration seen n p fs) as [[seen' def]|e]; [|done].
    simpl.
    by rewrite (IH _ _ _ _ _ _ (completed_position_after d)).
Qed.

(** On the tokens of a sequence of declarations the parser returns what
    the checks of [p_declaration], run in order, return. *)
Lemma parse_tokens_declarations ds :
  parse_tokens (tokens ds) = declare_all ∅ [] ds.
Proof.
  destruct ds as [|d ds]; [done|].
  change (tokens (d :: ds))
    with (Token <$> (declaration_tokens d ++ flat_map declaration_tokens ds)).
  rewrite fmap_app. fold (tokens ds).
  unfold parse_tokens, initial. simpl p_zero_or_more_declaration.
  rewrite drive_declaration.
  by rewrite (drive_completed _ _ _ _ _ _ _ (completed_position_after d)).
Qed.

End driver.

(** ** The checks of [p_declaration] *)

Section checks.
Import Parser Syntax.

Lemma p_declaration_seen seen n p fs :
  n ∈ seen → p_declaration seen n p fs = Raise (MultipleDeclarationsOfName n).
Proof. intros H. unfold p_declaration. by rewrite bool_decide_eq_true_2. Qed.

Lemma p_declaration_Ok seen n p fs seen' def :
  p_declaration seen n p fs = Ok (seen', def) →
  (n ∉ seen) ∧ seen' = seen ∪ {[n]} ∧ def = mkDefinition n p fs.
Proof.
  unfold p_declaration. case_bool_decide; [done|].
  destruct fs as [li|].
  - destruct (duplicated_fields li); [|done]. by intros [= <- <-].
  - destruct p; [|done]. by intros [= <- <-].
Qed.

Lemma declare_all_Ok ds : ∀ seen acc defs,
  declare_all seen acc ds = Ok defs → defs = acc ++ (definition_of <$> ds).
Proof.
  induction ds as [|d ds IH]; intros seen acc defs; simpl.
  - intros [= <-]. by rewrite app_nil_r.
  - destruct (p_declaration _ _ _ _) as [[seen' def]|e] eqn:E; [|done].
    simpl. intros H. apply IH in H as ->.
    apply p_declaration_Ok in E as (_ & _ & ->).
    by rewrite <- app_assoc.
Qed.

Lemma declare_all_redeclared pre : ∀ seen acc defs d post,
  declare_all seen acc pre = Ok defs →
  d_name d ∈ seen ∨ d_name d ∈ d_name <$> pre →
  declare_all seen acc (pre ++ d :: post)
  = Raise (MultipleDeclarationsOfName (d_name d)).
Proof.
  induction pre as [|x pre IH]; intros seen acc defs d post; simpl.
  - intros _ [H|H]; [|by apply elem_of_nil in H].
    by rewrite p_declaration_seen.
  - destruct (p_declaration _ _ _ _) as [[seen' def]|e] eqn:E; [|done].
    simpl. intros Hok Hin. eapply IH; [done|].
    apply p_declaration_Ok in E as (_ & -> & _).
    rewrite elem_of_cons in Hin. set_solver.
Qed.

Lemma declare_all_duplicate ds : ∀ seen acc,
  (∃ d, d ∈ ds ∧ d_name d ∈ seen) ∨ ¬ NoDup (d_name <$> ds) →
  ∃ e, declare_all seen acc ds = Raise e.
Proof.
  induction ds as [|d ds IH]; intros seen acc H; simpl.
  - destruct H as [(d & Hd & _)|H]; [by apply elem_of_nil in Hd|].
    destruct H. constructor.
  - destruct (p_declaration _ _ _ _) as [[seen' def]|e] eqn:E; [|by eexists].
    simpl. apply p_declaration_Ok in E as (Hn & -> & _).
    apply IH.
    destruct H as [(d' & Hd' & Hs)|H].
    + apply elem_of_cons in Hd' as [->|Hd']; [done|].
      left. exists d'. split; [done|set_solver].
    + rewrite fmap_cons, NoDup_cons in H.
      destruct (decide (d_name d ∈ d_name <$> ds)) as [Hin|Hin].
      * left. apply list_elem_of_fmap in Hin as (d' & Heq & Hd').
        exists d'. split; [done|]. rewrite <- Heq. set_solver.
      * right. tauto.
Qed.

(** *** The loop over the field names *)

Lemma check_fields_snoc li f : ∀ seen dups,
  check_fields (li ++ [f]) seen dups
  = let '(seen', dups') := check_fields li seen dups in
    if bool_decide (field_name f ∈ seen')
    then (seen', dups' ++ [field_name f])
    else (seen' ++ [field_name f], dups').
Proof.
  induction li as [|[[x ty] m] li IH]; intros seen dups; simpl.
  - by destruct f as [[??]?].
  - case_bool_decide; apply IH.
Qed.

Lemma check_fields_seen li : ∀ seen dups x,
  x ∈ (check_fields li seen dups).1 ↔ x ∈ seen ∨ x ∈ field_name <$> li.
Proof.
  induction li as [|[[y ty] m] li IH]; intros seen dups x; simpl.
  - rewrite elem_of_nil. tauto.
  - rewrite elem_of_cons. unfold field_name at 1. simpl.
    case_bool_decide as Hy; rewrite IH.
    + split; [tauto|]. intros [?|[->|?]]; tauto.
    + rewrite elem_of_app, list_elem_of_singleton. tauto.
Qed.

Lemma duplicated_fields_snoc li f :
  duplicated_fields (li ++ [f])
  = duplicated_fields li
    ++ (if bool_decide (field_name f ∈ field_name <$> li) then [field_name f] else []).
Proof.
  unfold duplicated_fields. rewrite check_fields_snoc.
  destruct (check_fields li [] []) as [seen' dups'] eqn:E. simpl.
  assert (field_name f ∈ seen' ↔ field_name f ∈ field_name <$> li) as Hiff.
  { pose proof (check_fields_seen li [] [] (field_name f)) as H.
    rewrite E in H. simpl in H. rewrite H, elem_of_nil. tauto. }
  rewrite (bool_decide_ext _ _ Hiff).
  case_bool_decide; simpl; [done|by rewrite app_nil_r].
Qed.

Lemma occurrences_snoc x l y :
  occurrences x (l ++ [y]) = occurrences x l + (if bool_decide (y = x) then 1 else 0).
Proof.
  unfold occurrences. rewrite filter_app, length_app.
  f_equal. rewrite filter_cons, filter_nil.
  destruct (decide (y = x));
    [by rewrite bool_decide_eq_true_2|by rewrite bool_decide_eq_false_2].
Qed.

Lemma occurrences_elem_of x l : x ∈ l ↔ 0 < occurrences x l.
Proof.
  unfold occurrences. induction l as [|y l IH]; simpl.
  - rewrite elem_of_nil. simpl. lia.
  - rewrite elem_of_cons, filter_cons. destruct (decide (y = x)) as [->|]; simpl.
    + split; [lia|auto].
    + rewrite IH. split; [intros [?|?]; [congruence|done]|auto].
Qed.

(** A name that occurs [k] times among the fields is listed [k - 1] times. *)
Lemma duplicated_fields_occurrences li x :
  occurrences x (duplicated_fields li) = pred (occurrences x (field_name <$> li)).
Proof.
  induction li as [|f li IH] using rev_ind; [done|].
  rewrite duplicated_fields_snoc, fmap_app.
  change (field_name <$> [f]) with [field_name f].
  rewrite (occurrences_snoc x (field_name <$> li)).
  case_bool_decide as Hin.
  - rewrite occurrences_snoc, IH.
    case_bool_decide as Hx; [|lia].
    rewrite Hx in Hin. apply occurrences_elem_of in Hin. lia.
  - rewrite app_nil_r, IH.
    case_bool_decide as Hx; [|lia].
    rewrite Hx in Hin. rewrite occurrences_elem_of in Hin. lia.
Qed.

Lemma duplicated_fields_elem_of li x :
  x ∈ duplicated_fields li ↔ (2 ≤ occurrences x (field_name <$> li))%nat.
Proof. rewrite occurrences_elem_of, duplicated_fields_occurrences. lia. Qed.

Lemma NoDup_occurrences (l : list string) :
  NoDup l ↔ ∀ x, (occurrences x l ≤ 1)%nat.
Proof.
  induction l as [|y l IH].
  - split; [intros _ x; unfold occurrences; simpl; lia|constructor].
  - rewrite NoDup_cons, IH. unfold occurrences. split.
    + intros [Hy H] x. rewrite filter_cons.
      destruct (decide (y = x)) as [->|]; [|apply H]. simpl.
      rewrite occurrences_elem_of in Hy. unfold occurrences in Hy. lia.
    + intros H. split.
      * rewrite occurrences_elem_of. specialize (H y).
        rewrite filter_cons, decide_True in H by done. simpl in H.
        unfold occurrences. lia.
      * intros x. specialize (H x). rewrite filter_cons in H.
        destruct (decide (y = x)); simpl in H; lia.
Qed.

Lemma duplicated_fields_nil li :
  duplicated_fields li = [] ↔ NoDup (field_name <$> li).
Proof.
  rewrite NoDup_occurrences. split.
  - intros H x. pose proof (duplicated_fields_occurrences li x) as Hx.
    rewrite H in Hx. unfold occurrences at 1 in Hx. simpl in Hx. lia.
  - intros H. destruct (duplicated_fields li) as [|x l] eqn:E; [done|].
    assert (x ∈ duplicated_fields li) as Hx by (rewrite E; left).
    apply duplicated_fields_elem_of in Hx. specialize (H x). lia.
Qed.

End checks.

(** ** Facts on strings *)

Section strings.

Lemma string_app_cons c s1 s2 : String c s1 +:+ s2 = String c (s1 +:+ s2).
Proof. reflexivity. Qed.

Lemma string_app_assoc s1 s2 s3 : (s1 +:+ s2) +:+ s3 = s1 +:+ (s2 +:+ s3).
Proof. induction s1 as [|c s1 IH]; [done|].
  rewrite ?string_app_cons. simpl. congruence.
Qed.

Lemma string_app_nil_r s : s +:+ "" = s.
Proof. induction s as [|c s IH]; [done|].
  rewrite ?string_app_cons. simpl. congruence.
Qed.

Lemma string_app_length s1 s2 :
  String.length (s1 +:+ s2) = String.length s1 + String.length s2.
Proof. induction s1 as [|c s1 IH]; [done|].
  rewrite ?string_app_cons. simpl. congruence.
Qed.

Lemma occurs_in_refl s : occurs_in s s.
Proof. exists "", "". by rewrite string_app_nil_r. Qed.

Lemma occurs_in_app_l t a s : occurs_in t s → occurs_in t (a +:+ s).
Proof.
  intros (before & after & ->). exists (a +:+ before), after.
  by rewrite string_app_assoc.
Qed.

Lemma occurs_in_app_r t s a : occurs_in t s → occurs_in t (s +:+ a).
Proof.
  intros (before & after & ->). exists before, (after +:+ a).
  by rewrite !string_app_assoc.
Qed.

Lemma occurs_in_trans t s u : occurs_in t s → occurs_in s u → occurs_in t u.
Proof.
  intros Hts (before & after & ->).
  by apply occurs_in_app_l, occurs_in_app_r.
Qed.

Lemma occurs_in_join sep parts x : x ∈ parts → occurs_in x (join sep parts).
Proof.
  induction parts as [|p parts IH]; [by intros ?%elem_of_nil|].
  intros [->|Hx]%elem_of_cons.
  - destruct parts; [apply occurs_in_refl|].
    apply occurs_in_app_r, occurs_in_refl.
  - destruct parts as [|q parts]; [by apply elem_of_nil in Hx|].
    change (join sep (p :: q :: parts)) with (p +:+ sep +:+ join sep (q :: parts)).
    by apply occurs_in_app_l, occurs_in_app_l, IH.
Qed.

End strings.

(** ** Comments and the lexer *)

Section text.

Lemma strip_comments_no_hash text : ∀ b,
  Repr.contains Chars.hash (strip_comments b text) = false.
Proof.
  induction text as [|c text IH]; intros b; [done|].
  cbn [strip_comments]. destruct b.
  - destruct (Ascii.eqb_spec c Chars.newline) as [->|Hc]; [|apply IH].
    cbn [Repr.contains]. rewrite IH. done.
  - destruct (Ascii.eqb c Chars.hash) eqn:Hc; [apply IH|].
    cbn [Repr.contains]. by rewrite Ascii.eqb_sym, Hc, IH.
Qed.

Lemma strip_comments_id text :
  Repr.contains Chars.hash text = false → strip_comments false text = text.
Proof.
  induction text as [|c text IH]; [done|].
  cbn [strip_comments Repr.contains]. rewrite Ascii.eqb_sym.
  destruct (Ascii.eqb c Chars.hash); [done|].
  intros H. by rewrite IH.
Qed.

Lemma join_cons_char sep c line more :
  join sep (String c line :: more) = String c (join sep (line :: more)).
Proof. by destruct more. Qed.

Lemma join_empty_first sep (more : list string) :
  more ≠ [] → join sep ("" :: more) = sep +:+ join sep more.
Proof. by destruct more. Qed.

Lemma split_lines_cons s : ∃ line more, split_lines s = line :: more.
Proof.
  induction s as [|c s (line & more & IH)]; [by eexists _, _|].
  simpl. rewrite IH. destruct (Ascii.eqb c Chars.newline); by eexists _, _.
Qed.

(** The pattern of [remove_comments] removes what the specification says:
    outside a comment the text is cut line by line at the first ['#'];
    inside one, the rest of the current line goes as well. *)
Lemma strip_comments_lines text :
  strip_comments false text = join nl (cut_comment <$> split_lines text)
  ∧ strip_comments true text
    = join nl ("" :: (cut_comment <$> tail (split_lines text))).
Proof.
  induction text as [|c text [IHf IHt]]; [done|].
  destruct (split_lines_cons text) as (line & more & Hl).
  cbn [strip_comments split_lines]. rewrite Hl in *. simpl tail in *.
  destruct (Ascii.eqb_spec c Chars.newline) as [->|Hnl].
  - change (Ascii.eqb Chars.newline Chars.hash) with false. cbn iota.
    rewrite IHf. simpl tail. rewrite !fmap_cons.
    rewrite join_empty_first by done. done.
  - simpl tail. rewrite !fmap_cons. cbn [cut_comment].
    destruct (Ascii.eqb c Chars.hash); [done|].
    split; [|done]. by rewrite IHf, fmap_cons, join_cons_char.
Qed.

Lemma remove_comments_without_comments text :
  remove_comments text = without_comments text.
Proof. apply strip_comments_lines. Qed.

Lemma remove_comments_idempotent text :
  remove_comments (remove_comments text) = remove_comments text.
Proof. apply strip_comments_id, strip_comments_no_hash. Qed.

Lemma strip_prefix_length p : ∀ s r,
  strip_prefix p s = Some r → String.length s = String.length p + String.length r.
Proof.
  induction p as [|a p IH]; intros s r; simpl.
  - by intros [= ->].
  - destruct s as [|b s]; [done|].
    destruct (Ascii.eqb a b); [|done].
    intros H. apply IH in H. simpl. lia.
Qed.

Lemma span_word_length s :
  String.length (span_word s).2 ≤ String.length s.
Proof.
  induction s as [|c s IH]; simpl; [done|].
  destruct (Chars.is_word c); simpl; [|done].
  destruct (span_word s); simpl in *. lia.
Qed.

(** A turn asks for the turns that follow on a shorter text only. *)
Lemma lex_turn_ext (k1 k2 : string → option (list lexeme)) s :
  (∀ s', String.length s' < String.length s → k1 s' = k2 s') →
  lex_turn k1 s = lex_turn k2 s.
Proof.
  intros H. destruct s as [|c s]; [done|].
  unfold lex_turn.
  destruct (Chars.is_ignore c); [apply H; simpl; lia|].
  destruct (Ascii.eqb c Chars.newline); [apply H; simpl; lia|].
  destruct (strip_prefix "inherit" (String c s)) as [rest'|] eqn:E.
  - apply strip_prefix_length in E. rewrite H; [done|]. rewrite E. simpl. lia.
  - destruct (Chars.is_word c) eqn:Hw.
    + pose proof (span_word_length s) as Hs.
      simpl. rewrite Hw. destruct (span_word s) as [w r]. simpl in Hs.
      rewrite H; [done|]. simpl. lia.
    + destruct (Chars.is_literal c); [|done].
      rewrite H; [done|]. simpl. lia.
Qed.

Lemma lex_loop_enough fuel1 : ∀ fuel2 s,
  String.length s < fuel1 → String.length s < fuel2 →
  lex_loop fuel1 s = lex_loop fuel2 s.
Proof.
  induction fuel1 as [|fuel1 IH]; intros fuel2 s H1 H2; [lia|].
  destruct fuel2 as [|fuel2]; [lia|].
  simpl. apply lex_turn_ext. intros s' Hs'. apply IH; lia.
Qed.

(** The lexer, without the fuel. *)
Lemma tokenize_unfold s : tokenize s = lex_turn tokenize s.
Proof.
  unfold tokenize at 1. simpl. apply lex_turn_ext.
  intros s' Hs'. apply lex_loop_enough; lia.
Qed.

(** The lexer loop always ends: the length of the text is fuel enough. *)
Lemma lex_loop_total fuel : ∀ s,
  String.length s < fuel → is_Some (lex_loop fuel s).
Proof.
  induction fuel as [|fuel IH]; intros s Hlen; [lia|].
  destruct s as [|c s]; [by eexists|].
  simpl in Hlen.
  change (lex_loop (S fuel) ?x) with (lex_turn (lex_loop fuel) x).
  unfold lex_turn.
  destruct (Chars.is_ignore c); [apply IH; lia|].
  destruct (Ascii.eqb c Chars.newline); [apply IH; lia|].
  destruct (strip_prefix "inherit" (String c s)) as [rest'|] eqn:E.
  - apply strip_prefix_length in E. simpl in E.
    apply fmap_is_Some, IH. lia.
  - destruct (Chars.is_word c) eqn:Hw.
    + pose proof (span_word_length s) as Hs.
      simpl. rewrite Hw. destruct (span_word s) as [w r]. simpl in Hs.
      apply fmap_is_Some, IH. lia.
    + destruct (Chars.is_literal c); [|by eexists].
      apply fmap_is_Some, IH. lia.
Qed.

(** *** Writing tokens out and lexing them back *)

Lemma is_word_facts c :
  Chars.is_word c = true →
  Chars.is_ignore c = false ∧ Ascii.eqb c Chars.newline = false
  ∧ Ascii.eqb Chars.hash c = false ∧ c ≠ " "%char.
Proof. by destruct c as [[] [] [] [] [] [] [] []]. Qed.

Lemma is_literal_facts c :
  Chars.is_literal c = true →
  Chars.is_ignore c = false ∧ Ascii.eqb c Chars.newline = false
  ∧ Ascii.eqb Chars.hash c = false ∧ Chars.is_word c = false
  ∧ Ascii.eqb "i" c = false.
Proof. by destruct c as [[] [] [] [] [] [] [] []]. Qed.

Lemma span_word_name n rest :
  Syntax.all_word n = true →
  span_word (n +:+ String " " rest) = (n, String " " rest).
Proof.
  induction n as [|c n IH]; [done|].
  simpl. intros [Hc Hn]%andb_true_iff. by rewrite Hc, IH.
Qed.

Lemma strip_prefix_name p : ∀ n rest,
  Repr.contains " " p = false →
  strip_prefix p n = None →
  strip_prefix p (n +:+ String " " rest) = None.
Proof.
  induction p as [|a p IH]; intros n rest Hp; [done|].
  cbn [Repr.contains] in Hp. apply orb_false_iff in Hp as [Ha Hp].
  destruct n as [|b n].
  - intros _. simpl. rewrite Ascii.eqb_sym. by rewrite Ha.
  - rewrite string_app_cons. simpl.
    destruct (Ascii.eqb a b); [by apply IH|done].
Qed.

Lemma tokenize_skip c s :
  Chars.is_ignore c = true ∨ c = Chars.newline →
  tokenize (String c s) = tokenize s.
Proof.
  intros H. rewrite tokenize_unfold. unfold lex_turn.
  destruct H as [->| ->]; [done|]. by destruct (Chars.is_ignore _).
Qed.

Lemma tokenize_token t s :
  Syntax.lexable t = true →
  tokenize (Syntax.token_text t +:+ String " " s) = cons (Token t) <$> tokenize s.
Proof.
  intros Ht. rewrite tokenize_unfold.
  destruct t as [|n|c]; simpl Syntax.token_text.
  - simpl. change ("" +:+ String " " s) with (String " " s).
    by rewrite (tokenize_skip " ") by by left.
  - simpl in Ht. apply andb_true_iff in Ht as [[Hne Hw]%andb_true_iff Hk].
    destruct n as [|c n]; [done|].
    pose proof Hw as Hw'. simpl in Hw'. apply andb_true_iff in Hw' as [Hc _].
    destruct (is_word_facts c Hc) as (Hi & Hnl & _ & _).
    rewrite string_app_cons. unfold lex_turn. rewrite Hi, Hnl.
    rewrite <- string_app_cons.
    rewrite strip_prefix_name; [|done|].
    + rewrite Hc, span_word_name by done.
      by rewrite (tokenize_skip " ") by by left.
    + apply negb_true_iff in Hk. unfold startswith in Hk.
      apply bool_decide_eq_false in Hk.
      destruct (strip_prefix "inherit" (String c n)) eqn:E; [|done].
      destruct Hk. by eexists.
  - simpl in Ht. destruct (is_literal_facts c Ht) as (Hi & Hnl & _ & Hw & Hk).
    rewrite string_app_cons. unfold lex_turn. rewrite Hi, Hnl.
    cbn [strip_prefix]. rewrite Hk, Hw, Ht.
    change ("" +:+ String " " s) with (String " " s).
    by rewrite (tokenize_skip " ") by by left.
Qed.

Lemma tokenize_write ts : ∀ rest,
  Forall (λ t, Syntax.lexable t = true) ts →
  tokenize (Syntax.write ts +:+ rest) = (λ l, (Token <$> ts) ++ l) <$> tokenize rest.
Proof.
  induction ts as [|t ts IH]; intros rest Hts.
  - simpl. by rewrite option_fmap_id.
  - apply Forall_cons in Hts as [Ht Hts].
    cbn [Syntax.write]. rewrite !string_app_assoc.
    change (" " +:+ ?x) with (String " " x).
    rewrite (tokenize_token t _ Ht), IH by done.
    rewrite <- option_fmap_compose. done.
Qed.

Lemma tokenize_text ds :
  Forall Syntax.well_named ds → tokenize (Syntax.text ds) = Some (Syntax.tokens ds).
Proof.
  induction ds as [|d ds IH]; intros Hds.
  - by rewrite tokenize_unfold.
  - apply Forall_cons in Hds as [Hd Hds].
    cbn [Syntax.text]. rewrite tokenize_write by done.
    unfold nl. rewrite string_app_cons.
    rewrite tokenize_skip by by right.
    change ("" +:+ Syntax.text ds) with (Syntax.text ds).
    rewrite IH by done. unfold Syntax.tokens.
    change (flat_map ?f (d :: ds)) with (f d ++ flat_map f ds).
    by rewrite fmap_app.
Qed.

Lemma contains_app c s1 s2 :
  Repr.contains c (s1 +:+ s2) = Repr.contains c s1 || Repr.contains c s2.
Proof.
  induction s1 as [|d s1 IH]; [done|].
  rewrite string_app_cons. cbn [Repr.contains]. by rewrite IH, orb_assoc.
Qed.

Lemma all_word_no_hash n :
  Syntax.all_word n = true → Repr.contains Chars.hash n = false.
Proof.
  induction n as [|c n IH]; [done|].
  cbn [Syntax.all_word]. intros [Hc Hn]%andb_true_iff.
  destruct (is_word_facts c Hc) as (_ & _ & Hh & _).
  cbn [Repr.contains]. by rewrite Hh, IH.
Qed.

Lemma write_no_hash ts :
  Forall (λ t, Syntax.lexable t = true) ts →
  Repr.contains Chars.hash (Syntax.write ts) = false.
Proof.
  induction 1 as [|t ts Ht Hts IH]; [done|].
  cbn [Syntax.write]. rewrite !contains_app, IH.
  destruct t as [|n|c]; simpl Syntax.token_text.
  - done.
  - simpl in Ht. apply andb_true_iff in Ht as [[_ Hw]%andb_true_iff _].
    by rewrite all_word_no_hash.
  - simpl in Ht. destruct (is_literal_facts c Ht) as (_ & _ & Hh & _).
    cbn [Repr.contains]. by rewrite Hh.
Qed.

Lemma text_no_hash ds :
  Forall Syntax.well_named ds → Repr.contains Chars.hash (Syntax.text ds) = false.
Proof.
  induction 1 as [|d ds Hd Hds IH]; [done|].
  cbn [Syntax.text]. by rewrite !contains_app, IH, write_no_hash.
Qed.

(** Declarations with proper names have a text that reads as them. *)
Lemma reads_text ds : Forall Syntax.well_named ds → reads (Syntax.text ds) ds.
Proof.
  intros Hds. unfold reads, remove_comments.
  rewrite strip_comments_id by by apply text_no_hash.
  by apply tokenize_text.
Qed.

(** A text that reads as declarations is parsed as their tokens are: the
    outcome is that of the checks of [p_declaration] run in order. *)
Lemma parse_reads text ds :
  reads text ds → Parser.parse text = Some (declare_all ∅ [] ds).
Proof.
  unfold reads, Parser.parse. intros ->. simpl.
  by rewrite parse_tokens_declarations.
Qed.

Lemma tokenize_total s : is_Some (tokenize s).
Proof. apply lex_loop_total. lia. Qed.

(** [Parser.parse] returns or raises on every text. *)
Lemma parse_total text : is_Some (Parser.parse text).
Proof. unfold Parser.parse. apply fmap_is_Some, tokenize_total. Qed.

End text.

(** C9: parsing a text and parsing the text with its comments removed give
    the same outcome, the same definitions or the same error: removing
    the comments is cutting every line at its first ['#'], [Parser.parse]
    does it itself before the lexer runs, and nothing of a comment is left
    after it; two texts that differ only in their comments therefore parse
    alike, and every text has an outcome. *)
Theorem parse_ignores_comments (text : string) :
  Parser.parse (without_comments text) = Parser.parse text
  ∧ remove_comments text = without_comments text
  ∧ Repr.contains Chars.hash (without_comments text) = false
  ∧ Parser.parse text = Parser.parse_tokens <$> tokenize (without_comments text)
  ∧ (∃ outcome, Parser.parse text = Some outcome).
Proof.
  rewrite <- remove_comments_without_comments.
  split_and!.
  - unfold Parser.parse. by rewrite remove_comments_idempotent.
  - done.
  - apply strip_comments_no_hash.
  - done.
  - apply parse_total.
Qed.

(** ** What is stored for a field, and how it is written out *)

Section fields.
Import Parser Syntax.

Lemma parse_tokens_Ok ds defs :
  parse_tokens (tokens ds) = Ok defs → defs = definition_of <$> ds.
Proof. rewrite parse_tokens_declarations. apply declare_all_Ok. Qed.

Lemma parsed_field ds defs j d i f :
  parse_tokens (tokens ds) = Ok defs →
  ds !! j = Some d →
  body_fields (d_body d) !! i = Some f →
  defs !! j = Some (definition_of d) ∧
  ∃ li, fields (definition_of d) = FieldList li ∧ li !! i = Some (field_of f).
Proof.
  intros ->%parse_tokens_Ok Hd Hf. split.
  - by rewrite list_lookup_fmap, Hd.
  - exists (field_of <$> body_fields (d_body d)). split.
    + unfold definition_of. simpl. by destruct (d_body d).
    + by rewrite list_lookup_fmap, Hf.
Qed.

Lemma prettify_list_field li f :
  f ∈ li → occurs_in (prettify_field f) (_prettify_list li).
Proof.
  intros Hf. destruct li as [|g li]; [by apply elem_of_nil in Hf|].
  unfold _prettify_list. apply occurs_in_join.
  rewrite elem_of_app, elem_of_app. right. left.
  by apply list_elem_of_fmap_2.
Qed.

Lemma generate_class_field def li f :
  fields def = FieldList li → f ∈ li →
  occurs_in (prettify_field f) (SourceGenerator.generate_class def).
Proof.
  intros Hli Hf. unfold SourceGenerator.generate_class. rewrite Hli.
  apply occurs_in_app_l.
  do 5 apply occurs_in_app_l.
  by apply prettify_list_field.
Qed.

Lemma generate_sources_class defs def :
  def ∈ defs →
  occurs_in (SourceGenerator.generate_class def) (SourceGenerator.generate_sources defs).
Proof.
  intros H. apply occurs_in_join. by apply list_elem_of_fmap_2.
Qed.

End fields.

(** C1: the suffix of a field decides its modifier: ['?'] gives [OPTIONAL],
    ['+'] gives [ONE_OR_MORE], ['*'] gives [ZERO_OR_MORE] and no suffix
    gives the default member (the spec's REQUIRED, spelled [NEEDED] in the
    source); the four forms and the four members correspond one to one;
    and in every text that parses, the field at any place of any
    declaration carries the modifier of its own suffix. *)
Theorem modifier_mapping :
  (Parser.p_modifier (Some "?"%char) = OPTIONAL
   ∧ Parser.p_modifier (Some "+"%char) = ONE_OR_MORE
   ∧ Parser.p_modifier (Some "*"%char) = ZERO_OR_MORE
   ∧ Parser.p_modifier None = NEEDED)
  ∧ (∀ s1 s2, Syntax.modifier_of s1 = Syntax.modifier_of s2 → s1 = s2)
  ∧ (∀ m, ∃ s, Syntax.modifier_of s = m)
  ∧ (∀ text ds defs j d i f,
       reads text ds →
       Parser.parse text = Some (Ok defs) →
       ds !! j = Some d →
       Syntax.body_fields (Syntax.d_body d) !! i = Some f →
       ∃ def li nm ty,
         defs !! j = Some def ∧ fields def = FieldList li
         ∧ li !! i = Some (nm, ty, Syntax.modifier_of (Syntax.f_suffix f))).
Proof.
  split_and!; try reflexivity.
  - by intros [] [].
  - intros []; [exists Syntax.NoSuffix|exists Syntax.Question
               |exists Syntax.Plus|exists Syntax.Star]; reflexivity.
  - intros text ds defs j d i f Hreads Hparse Hd Hf.
    rewrite (parse_reads _ _ Hreads), <- parse_tokens_declarations in Hparse.
    injection Hparse as Hparse.
    destruct (parsed_field _ _ _ _ _ _ Hparse Hd Hf) as (Hdef & li & Hli & Hi).
    by exists (definition_of d), li, (Syntax.f_name f), (Syntax.f_type f).
Qed.

Lemma modifier_mapping_witness :
  ∃ def li nm ty,
    [mkDefinition "Module" None
       (FieldList [("doc", "str", OPTIONAL); ("body", "stmt", ZERO_OR_MORE)])]
      !! 0 = Some def
    ∧ fields def = FieldList li
    ∧ li !! 1 = Some (nm, ty, Syntax.modifier_of Syntax.Star).
Proof.
  apply (proj2 (proj2 (proj2 modifier_mapping))
           "Module: [str? doc, stmt* body,]  # the root"
           [Syntax.mkDeclaration "Module" None
              (Syntax.Fields (Syntax.mkField "str" Syntax.Question "doc")
                 [Syntax.mkField "stmt" Syntax.Star "body"] true)]
           _ 0
           (Syntax.mkDeclaration "Module" None
              (Syntax.Fields (Syntax.mkField "str" Syntax.Question "doc")
                 [Syntax.mkField "stmt" Syntax.Star "body"] true))
           1 (Syntax.mkField "stmt" Syntax.Star "body")).
  - vm_compute. reflexivity.
  - vm_compute. reflexivity.
  - reflexivity.
  - reflexivity.
Defined.

(** C2: a field written as type, modifier, field name is stored in the
    [Definition] as the triple (field name, type, modifier), and the
    generated text carries that triple in the same order, as a line
    [(repr name, type, repr modifier),] of the list of its class. *)
Theorem field_triple_reordered :
  (∀ ty m nm, Parser.p_field ty m nm = (nm, ty, m))
  ∧ (∀ f li, _prettify_list (f :: li)
       = join nl (["["]
                  ++ ((λ '(name, type_, modifier),
                        "            (" +:+ Repr.repr name +:+ ", " +:+ type_
                        +:+ ", " +:+ Repr.repr (modifier_name modifier) +:+ "),")
                      <$> f :: li)
                  ++ ["        ]"]))
  ∧ (∀ text ds defs j d i f,
       reads text ds →
       Parser.parse text = Some (Ok defs) →
       ds !! j = Some d →
       Syntax.body_fields (Syntax.d_body d) !! i = Some f →
       ∃ def li,
         defs !! j = Some def ∧ fields def = FieldList li
         ∧ li !! i = Some (Syntax.f_name f, Syntax.f_type f,
                           Syntax.modifier_of (Syntax.f_suffix f))
         ∧ occurs_in
             ("            (" +:+ Repr.repr (Syntax.f_name f) +:+ ", "
              +:+ Syntax.f_type f +:+ ", "
              +:+ Repr.repr (modifier_name (Syntax.modifier_of (Syntax.f_suffix f)))
              +:+ "),")
             (SourceGenerator.generate_sources defs)).
Proof.
  split_and!.
  - done.
  - intros f li. unfold _prettify_list. do 3 f_equal.
  - intros text ds defs j d i f Hreads Hparse Hd Hf.
    rewrite (parse_reads _ _ Hreads), <- parse_tokens_declarations in Hparse.
    injection Hparse as Hparse.
    destruct (parsed_field _ _ _ _ _ _ Hparse Hd Hf) as (Hdef & li & Hli & Hi).
    exists (definition_of d), li. split_and!; try done.
    eapply occurs_in_trans; [|eapply generate_sources_class, list_elem_of_lookup_2, Hdef].
    eapply (generate_class_field _ _ (Syntax.field_of f)); [done|].
    by eapply list_elem_of_lookup_2.
Qed.

Lemma field_triple_reordered_witness :
  ∃ def li,
    [mkDefinition "Assign" (Some "Statement")
       (FieldList [("target", "expr", NEEDED); ("value", "expr", OPTIONAL)])]
      !! 0 = Some def
    ∧ fields def = FieldList li
    ∧ li !! 1 = Some ("value", "expr", Syntax.modifier_of Syntax.Question)
    ∧ occurs_in
        ("            (" +:+ Repr.repr "value" +:+ ", " +:+ "expr" +:+ ", "
         +:+ Repr.repr (modifier_name (Syntax.modifier_of Syntax.Question))
         +:+ "),")
        (SourceGenerator.generate_sources
           [mkDefinition "Assign" (Some "Statement")
              (FieldList [("target", "expr", NEEDED); ("value", "expr", OPTIONAL)])]).
Proof.
  apply (proj2 (proj2 field_triple_reordered)
           "Assign(Statement): [expr target, expr? value]"
           [Syntax.mkDeclaration "Assign" (Some "Statement")
              (Syntax.Fields (Syntax.mkField "expr" Syntax.NoSuffix "target")
                 [Syntax.mkField "expr" Syntax.Question "value"] false)]
           _ 0
           (Syntax.mkDeclaration "Assign" (Some "Statement")
              (Syntax.Fields (Syntax.mkField "expr" Syntax.NoSuffix "target")
                 [Syntax.mkField "expr" Syntax.Question "value"] false))
           1 (Syntax.mkField "expr" Syntax.Question "value")).
  - vm_compute. reflexivity.
  - vm_compute. reflexivity.
  - reflexivity.
  - reflexivity.
Defined.

(** ** The first violation decides *)

Section first_violation.
Import Parser Syntax.

Lemma declare_all_app pre : ∀ seen acc defs rest,
  declare_all seen acc pre = Ok defs →
  declare_all seen acc (pre ++ rest)
  = declare_all (seen ∪ list_to_set (d_name <$> pre)) defs rest.
Proof.
  induction pre as [|d pre IH]; intros seen acc defs rest; simpl.
  - intros [= ->]. f_equal. set_solver.
  - destruct (p_declaration _ _ _ _) as [[seen' def]|e] eqn:E; [|done].
    simpl. intros H. rewrite (IH _ _ _ _ H).
    apply p_declaration_Ok in E as (_ & -> & _).
    f_equal. set_solver.
Qed.

(** After a text that parses, the next declaration is checked against the
    names of that text, and its failure is the failure of the whole. *)
Lemma parse_tokens_next pre d post defs :
  parse_tokens (tokens pre) = Ok defs →
  parse_tokens (tokens (pre ++ d :: post))
  = '(seen, def) ← p_declaration (list_to_set (d_name <$> pre)) (d_name d)
                     (d_parent d) (fields_of (d_body d));
    declare_all seen (defs ++ [def]) post.
Proof.
  rewrite !parse_tokens_declarations. intros H.
  rewrite (declare_all_app _ _ _ _ _ H). simpl.
  by rewrite (left_id_L ∅ (∪)).
Qed.

Lemma p_declaration_fresh seen n p fs :
  n ∉ seen →
  p_declaration seen n p fs
  = match fs with
    | FieldList li =>
        match duplicated_fields li with
        | [] => Ok (seen ∪ {[n]}, mkDefinition n p fs)
        | dups => Raise (MultipleDeclarationsOfAttributes n dups)
        end
    | Inherit =>
        match p with
        | None => Raise (InheritingWithoutParent n)
        | Some _ => Ok (seen ∪ {[n]}, mkDefinition n p fs)
        end
    end.
Proof. intros H. unfold p_declaration. by rewrite bool_decide_eq_false_2. Qed.

Lemma reads_parse_tokens text ds :
  reads text ds → Parser.parse text = Some (parse_tokens (tokens ds)).
Proof. intros H. by rewrite (parse_reads _ _ H), parse_tokens_declarations. Qed.

Lemma parse_tokens_single d :
  parse_tokens (tokens [d])
  = '(_, def) ← p_declaration ∅ (d_name d) (d_parent d) (fields_of (d_body d));
    Ok [def].
Proof.
  rewrite parse_tokens_declarations. simpl.
  by destruct (p_declaration _ _ _ _) as [[??]|?].
Qed.

End first_violation.

Section declarations.
Import Parser Syntax.

Lemma field_name_field_of (l : list field) :
  field_name <$> (field_of <$> l) = f_name <$> l.
Proof. rewrite <- list_fmap_compose. by apply list_fmap_ext. Qed.

Lemma p_declaration_duplicated_fields seen n p li :
  n ∉ seen → ¬ NoDup (field_name <$> li) →
  p_declaration seen n p (FieldList li)
  = Raise (MultipleDeclarationsOfAttributes n (duplicated_fields li)).
Proof.
  intros Hn Hdup. rewrite p_declaration_fresh by done.
  destruct (duplicated_fields li) eqn:E; [|done].
  by apply duplicated_fields_nil in E.
Qed.

Lemma p_declaration_distinct_fields seen n p li :
  n ∉ seen → NoDup (field_name <$> li) →
  p_declaration seen n p (FieldList li)
  = Ok (seen ∪ {[n]}, mkDefinition n p (FieldList li)).
Proof.
  intros Hn Hdup. rewrite p_declaration_fresh by done.
  apply duplicated_fields_nil in Hdup. by rewrite Hdup.
Qed.

Lemma not_elem_of_names (pre : list declaration) n :
  n ∉ d_name <$> pre → n ∉ (list_to_set (d_name <$> pre) : gset string).
Proof. by rewrite elem_of_list_to_set. Qed.

End declarations.

(** Against C3 as written: a text with two declarations of one name fails
    with another error when a declaration before the second of them fails
    a check of its own; the error raised need not name the repeated name
    at all. *)
Lemma duplicate_name_other_error_counterexample :
  reads "B: inherit
A: []
A: [int x]"
    [Syntax.mkDeclaration "B" None Syntax.InheritForm;
     Syntax.mkDeclaration "A" None Syntax.EmptyList;
     Syntax.mkDeclaration "A" None
       (Syntax.Fields (Syntax.mkField "int" Syntax.NoSuffix "x") [] false)]
  ∧ ¬ NoDup ["B"; "A"; "A"]
  ∧ Parser.parse "B: inherit
A: []
A: [int x]"
    = Some (Raise (InheritingWithoutParent "B"))
  ∧ message (InheritingWithoutParent "B")
    = Some "Inheriting nodes need parents to inherit from. See definition of 'B'"
  ∧ Parser.parse "A: [int x, int x]
A"
    = Some (Raise (MultipleDeclarationsOfAttributes "A" ["x"])).
Proof.
  split_and!.
  - vm_compute. reflexivity.
  - intros H. apply NoDup_cons_1_2, NoDup_cons_1_1 in H. apply H. left.
  - vm_compute. reflexivity.
  - vm_compute. reflexivity.
  - vm_compute. reflexivity.
Qed.

(** C3, as the code has it: a declaration whose name has already been
    declared is refused with the error that names it, whatever its parent
    and its fields are; so a text with two declarations of one name never
    yields definitions, and when the declarations before the second of
    them are accepted, the error raised is the one naming the repeated
    name. *)
Theorem duplicate_name_rejected :
  (∀ seen n p fs,
     n ∈ seen →
     Parser.p_declaration seen n p fs = Raise (MultipleDeclarationsOfName n))
  ∧ (∀ text ds,
       reads text ds →
       ¬ NoDup (Syntax.d_name <$> ds) →
       ∃ e, Parser.parse text = Some (Raise e))
  ∧ (∀ text pre d post defs,
       reads text (pre ++ d :: post) →
       Parser.parse_tokens (Syntax.tokens pre) = Ok defs →
       Syntax.d_name d ∈ Syntax.d_name <$> pre →
       Parser.parse text = Some (Raise (MultipleDeclarationsOfName (Syntax.d_name d))))
  ∧ (∀ n, message (MultipleDeclarationsOfName n)
          = Some ("Multiple declarations of name " +:+ Repr.repr n)).
Proof.
  split_and!.
  - apply p_declaration_seen.
  - intros text ds Hreads Hdup. rewrite (parse_reads _ _ Hreads).
    destruct (declare_all_duplicate ds ∅ [] (or_intror Hdup)) as [e ->].
    by exists e.
  - intros text pre d post defs Hreads Hpre Hin.
    rewrite (parse_reads _ _ Hreads). f_equal.
    rewrite parse_tokens_declarations in Hpre.
    eapply declare_all_redeclared; eauto.
  - done.
Qed.

Lemma duplicate_name_rejected_witness :
  Parser.parse "A: []
A: [int x]"
  = Some (Raise (MultipleDeclarationsOfName
                   (Syntax.d_name
                      (Syntax.mkDeclaration "A" None
                         (Syntax.Fields (Syntax.mkField "int" Syntax.NoSuffix "x")
                            [] false))))).
Proof.
  apply (proj1 (proj2 (proj2 duplicate_name_rejected))
           "A: []
A: [int x]"
           [Syntax.mkDeclaration "A" None Syntax.EmptyList]
           (Syntax.mkDeclaration "A" None
              (Syntax.Fields (Syntax.mkField "int" Syntax.NoSuffix "x") [] false))
           [] [mkDefinition "A" None (FieldList [])]).
  - vm_compute. reflexivity.
  - reflexivity.
  - apply (bool_decide_unpack _). vm_compute. exact I.
Defined.

(** C4: a declaration in the inherit form without a parent is refused with
    the error naming the node; with a parent it is accepted, and the class
    generated for its [Definition] has [pass] as its whole body. *)
Theorem inherit_requires_parent :
  (∀ text n,
     reads text [Syntax.mkDeclaration n None Syntax.InheritForm] →
     Parser.parse text = Some (Raise (InheritingWithoutParent n)))
  ∧ (∀ n, message (InheritingWithoutParent n)
          = Some ("Inheriting nodes need parents to inherit from. "
                  +:+ "See definition of " +:+ Repr.repr n))
  ∧ (∀ text n p,
       reads text [Syntax.mkDeclaration n (Some p) Syntax.InheritForm] →
       Parser.parse text = Some (Ok [mkDefinition n (Some p) Inherit]))
  ∧ (∀ n p, SourceGenerator.generate_class (mkDefinition n (Some p) Inherit)
            = "class " +:+ n +:+ "(" +:+ SourceGenerator.parent_or_object (Some p)
              +:+ "):" +:+ nl +:+ "    pass")
  ∧ (∀ text pre d post defs,
       reads text (pre ++ d :: post) →
       Parser.parse_tokens (Syntax.tokens pre) = Ok defs →
       Syntax.d_name d ∉ Syntax.d_name <$> pre →
       Syntax.d_body d = Syntax.InheritForm →
       match Syntax.d_parent d with
       | None =>
           Parser.parse text = Some (Raise (InheritingWithoutParent (Syntax.d_name d)))
       | Some p =>
           post = [] →
           Parser.parse text
           = Some (Ok (defs ++ [mkDefinition (Syntax.d_name d) (Some p) Inherit]))
       end).
Proof.
  split_and!.
  - intros text n Hreads.
    rewrite (reads_parse_tokens _ _ Hreads), parse_tokens_single. simpl.
    by rewrite p_declaration_fresh by apply not_elem_of_empty.
  - done.
  - intros text n p Hreads.
    rewrite (reads_parse_tokens _ _ Hreads), parse_tokens_single. simpl.
    by rewrite p_declaration_fresh by apply not_elem_of_empty.
  - intros n p. unfold SourceGenerator.generate_class. simpl.
    by rewrite !string_app_assoc.
  - intros text pre d post defs Hreads Hpre Hn Hbody.
    rewrite (reads_parse_tokens _ _ Hreads).
    rewrite (parse_tokens_next _ _ _ _ Hpre), Hbody.
    destruct (Syntax.d_parent d) as [p|] eqn:Hp.
    + intros ->. simpl.
      by rewrite p_declaration_fresh by by apply not_elem_of_names.
    + simpl. by rewrite p_declaration_fresh by by apply not_elem_of_names.
Qed.

Lemma inherit_requires_parent_witness :
  Parser.parse "Foo: inherit" = Some (Raise (InheritingWithoutParent "Foo"))
  ∧ Parser.parse "Foo(Bar): inherit"
    = Some (Ok [mkDefinition "Foo" (Some "Bar") Inherit])
  ∧ Parser.parse "Orphan: inherit
Module: [stmt* body]"
    = Some (Raise (InheritingWithoutParent "Orphan")).
Proof.
  split_and!.
  - apply (proj1 inherit_requires_parent "Foo: inherit" "Foo").
    vm_compute. reflexivity.
  - apply (proj1 (proj2 (proj2 inherit_requires_parent))
             "Foo(Bar): inherit" "Foo" "Bar").
    vm_compute. reflexivity.
  - apply (proj2 (proj2 (proj2 (proj2 inherit_requires_parent)))
             "Orphan: inherit
Module: [stmt* body]" []
             (Syntax.mkDeclaration "Orphan" None Syntax.InheritForm)
             [Syntax.mkDeclaration "Module" None
                (Syntax.Fields (Syntax.mkField "stmt" Syntax.Star "body") [] false)]
             []).
    + vm_compute. reflexivity.
    + reflexivity.
    + apply (bool_decide_unpack _). vm_compute. exact I.
    + reflexivity.
Defined.

(** C5: a declaration whose field list names a field twice (names compared
    as they are written, so [x] and [X] differ) is refused with the error
    that names the declaration and lists the repeated names, exactly those
    that occur twice or more; a declaration in the inherit form never gets
    that error. *)
Theorem duplicate_field_rejected :
  (∀ text n p first more tc,
     reads text [Syntax.mkDeclaration n p (Syntax.Fields first more tc)] →
     ¬ NoDup (Syntax.f_name <$> first :: more) →
     ∃ dups,
       Parser.parse text = Some (Raise (MultipleDeclarationsOfAttributes n dups))
       ∧ dups ≠ []
       ∧ ∀ x, x ∈ dups ↔ 2 ≤ occurrences x (Syntax.f_name <$> first :: more))
  ∧ (∀ text pre d post defs first more tc,
       reads text (pre ++ d :: post) →
       Parser.parse_tokens (Syntax.tokens pre) = Ok defs →
       Syntax.d_name d ∉ Syntax.d_name <$> pre →
       Syntax.d_body d = Syntax.Fields first more tc →
       ¬ NoDup (Syntax.f_name <$> first :: more) →
       ∃ dups,
         Parser.parse text
         = Some (Raise (MultipleDeclarationsOfAttributes (Syntax.d_name d) dups))
         ∧ dups ≠ []
         ∧ ∀ x, x ∈ dups ↔ 2 ≤ occurrences x (Syntax.f_name <$> first :: more))
  ∧ (∀ seen n p n' dups,
       Parser.p_declaration seen n p Inherit
       ≠ Raise (MultipleDeclarationsOfAttributes n' dups))
  ∧ Parser.parse "Pair: [int x, int X]"
    = Some (Ok [mkDefinition "Pair" None
                  (FieldList [("x", "int", NEEDED); ("X", "int", NEEDED)])]).
Proof.
  assert (∀ first more,
            ¬ NoDup (Syntax.f_name <$> first :: more) →
            let dups := Parser.duplicated_fields (Syntax.field_of <$> first :: more) in
            dups ≠ []
            ∧ ∀ x, x ∈ dups ↔ 2 ≤ occurrences x (Syntax.f_name <$> first :: more))
    as Hdups.
  { intros first more Hdup. cbv zeta. split.
    - rewrite duplicated_fields_nil, field_name_field_of. done.
    - intros x. by rewrite duplicated_fields_elem_of, field_name_field_of. }
  split_and!.
  - intros text n p first more tc Hreads Hdup.
    exists (Parser.duplicated_fields (Syntax.field_of <$> first :: more)).
    split; [|by apply Hdups].
    rewrite (reads_parse_tokens _ _ Hreads), parse_tokens_single.
    cbn [Syntax.d_name Syntax.d_parent Syntax.d_body Syntax.fields_of Syntax.body_fields].
    rewrite p_declaration_duplicated_fields; [done|apply not_elem_of_empty|].
    by rewrite field_name_field_of.
  - intros text pre d post defs first more tc Hreads Hpre Hn Hbody Hdup.
    exists (Parser.duplicated_fields (Syntax.field_of <$> first :: more)).
    split; [|by apply Hdups].
    rewrite (reads_parse_tokens _ _ Hreads).
    rewrite (parse_tokens_next _ _ _ _ Hpre), Hbody.
    cbn [Syntax.d_name Syntax.d_parent Syntax.d_body Syntax.fields_of Syntax.body_fields].
    rewrite p_declaration_duplicated_fields;
      [done|by apply not_elem_of_names|].
    by rewrite field_name_field_of.
  - intros seen n p n' dups. unfold Parser.p_declaration.
    case_bool_decide; [done|]. by destruct p.
  - vm_compute. reflexivity.
Qed.

Lemma duplicate_field_rejected_witness :
  ∃ dups,
    Parser.parse "Pair: [int x, int x]"
    = Some (Raise (MultipleDeclarationsOfAttributes "Pair" dups))
    ∧ dups ≠ []
    ∧ ∀ x, x ∈ dups ↔ 2 ≤ occurrences x
             (Syntax.f_name <$> Syntax.mkField "int" Syntax.NoSuffix "x"
                                :: [Syntax.mkField "int" Syntax.NoSuffix "x"]).
Proof.
  apply (proj1 duplicate_field_rejected "Pair: [int x, int x]" "Pair" None
           (Syntax.mkField "int" Syntax.NoSuffix "x")
           [Syntax.mkField "int" Syntax.NoSuffix "x"] false).
  - vm_compute. reflexivity.
  - apply (bool_decide_unpack _). vm_compute. exact I.
Defined.

(** C7: a declaration without a [':'] clause is accepted with the empty
    list as its fields, as if [: []] had been written: neither the inherit
    marker nor an error; and the class generated for it returns the
    literal [[]] from its [_fields]. *)
Theorem no_clause_is_empty_list :
  Parser.p_colon_fields_opt None = FieldList []
  ∧ (∀ text n p,
       reads text [Syntax.mkDeclaration n p Syntax.NoClause] →
       Parser.parse text = Some (Ok [mkDefinition n p (FieldList [])]))
  ∧ (∀ text text' n p,
       reads text [Syntax.mkDeclaration n p Syntax.NoClause] →
       reads text' [Syntax.mkDeclaration n p Syntax.EmptyList] →
       Parser.parse text = Parser.parse text')
  ∧ (∀ n p, SourceGenerator.generate_class (mkDefinition n p (FieldList []))
            = "class " +:+ n +:+ "(" +:+ SourceGenerator.parent_or_object p
              +:+ "):" +:+ nl
              +:+ "    @fields_decorator" +:+ nl
              +:+ "    def _fields(cls):" +:+ nl
              +:+ "        return []")
  ∧ (∀ text pre d defs,
       reads text (pre ++ [d]) →
       Parser.parse_tokens (Syntax.tokens pre) = Ok defs →
       Syntax.d_name d ∉ Syntax.d_name <$> pre →
       Syntax.d_body d = Syntax.NoClause →
       Parser.parse text
       = Some (Ok (defs ++ [mkDefinition (Syntax.d_name d) (Syntax.d_parent d)
                              (FieldList [])]))).
Proof.
  split_and!.
  - done.
  - intros text n p Hreads.
    rewrite (reads_parse_tokens _ _ Hreads), parse_tokens_single. simpl.
    by rewrite p_declaration_fresh by apply not_elem_of_empty.
  - intros text text' n p Hreads Hreads'.
    rewrite (reads_parse_tokens _ _ Hreads), (reads_parse_tokens _ _ Hreads').
    by rewrite !parse_tokens_single.
  - intros n p. unfold SourceGenerator.generate_class. simpl.
    by rewrite !string_app_assoc.
  - intros text pre d defs Hreads Hpre Hn Hbody.
    rewrite (reads_parse_tokens _ _ Hreads).
    rewrite (parse_tokens_next _ _ _ _ Hpre), Hbody. simpl.
    by rewrite p_declaration_fresh by by apply not_elem_of_names.
Qed.

Lemma no_clause_is_empty_list_witness :
  Parser.parse "Leaf" = Some (Ok [mkDefinition "Leaf" None (FieldList [])])
  ∧ Parser.parse "Node: []  # the base
Leaf(Node)"
    = Some (Ok ([mkDefinition "Node" None (FieldList [])]
                ++ [mkDefinition "Leaf" (Some "Node") (FieldList [])])).
Proof.
  split.
  - apply (proj1 (proj2 no_clause_is_empty_list) "Leaf" "Leaf" None).
    vm_compute. reflexivity.
  - apply (proj2 (proj2 (proj2 (proj2 no_clause_is_empty_list)))
             "Node: []  # the base
Leaf(Node)"
             [Syntax.mkDeclaration "Node" None Syntax.EmptyList]
             (Syntax.mkDeclaration "Leaf" (Some "Node") Syntax.NoClause)
             [mkDefinition "Node" None (FieldList [])]).
    + vm_compute. reflexivity.
    + reflexivity.
    + apply (bool_decide_unpack _). vm_compute. exact I.
    + reflexivity.
Defined.

(** Against C10 as written: a field name that occurs three times is
    listed twice in the one error raised, so the names of the error are
    not each listed once. *)
Lemma duplicated_fields_listed_once_counterexample :
  Parser.parse "P: [int x, int y, int x, int y, int x]"
  = Some (Raise (MultipleDeclarationsOfAttributes "P" ["x"; "y"; "x"]))
  ∧ ¬ NoDup ["x"; "y"; "x"]
  ∧ Parser.parse "P: [int x, int y, int x, int y, int x]"
    ≠ Some (Raise (MultipleDeclarationsOfAttributes "P" ["x"; "y"])).
Proof.
  split_and!.
  - vm_compute. reflexivity.
  - intros H. apply NoDup_cons_1_1 in H. apply H. right. left.
  - vm_compute. discriminate.
Qed.

(** C10, as the code has it: the one error raised for a field list with
    repeated names lists every repeated name, once for each occurrence
    after its first (a name written [k] times is listed [k - 1] times), in
    the order of those later occurrences; it does not stop at the first
    repeated name. *)
Theorem duplicated_fields_all_listed :
  (∀ text n p first more tc,
     reads text [Syntax.mkDeclaration n p (Syntax.Fields first more tc)] →
     ¬ NoDup (Syntax.f_name <$> first :: more) →
     Parser.parse text
     = Some (Raise (MultipleDeclarationsOfAttributes n
                      (Parser.duplicated_fields (Syntax.field_of <$> first :: more)))))
  ∧ (∀ seen n p li,
       n ∉ seen → ¬ NoDup (field_name <$> li) →
       Parser.p_declaration seen n p (FieldList li)
       = Raise (MultipleDeclarationsOfAttributes n (Parser.duplicated_fields li)))
  ∧ (∀ li x, occurrences x (Parser.duplicated_fields li)
             = pred (occurrences x (field_name <$> li)))
  ∧ (∀ li x, x ∈ Parser.duplicated_fields li
             ↔ 2 ≤ occurrences x (field_name <$> li))
  ∧ (∀ li f, Parser.duplicated_fields (li ++ [f])
             = Parser.duplicated_fields li
               ++ (if bool_decide (field_name f ∈ field_name <$> li)
                   then [field_name f] else []))
  ∧ (∀ n dups, message (MultipleDeclarationsOfAttributes n dups)
               = Some ("Multiple declarations in " +:+ Repr.repr n
                       +:+ " of attribute"
                       +:+ (if bool_decide (1 < length dups) then "s" else "")
                       +:+ " " +:+ Repr.repr (join ", " dups))).
Proof.
  split_and!.
  - intros text n p first more tc Hreads Hdup.
    rewrite (reads_parse_tokens _ _ Hreads), parse_tokens_single.
    cbn [Syntax.d_name Syntax.d_parent Syntax.d_body Syntax.fields_of Syntax.body_fields].
    rewrite p_declaration_duplicated_fields; [done|apply not_elem_of_empty|].
    by rewrite field_name_field_of.
  - apply p_declaration_duplicated_fields.
  - apply duplicated_fields_occurrences.
  - apply duplicated_fields_elem_of.
  - apply duplicated_fields_snoc.
  - done.
Qed.

Lemma duplicated_fields_all_listed_witness :
  Parser.parse "P: [int x, int y, int x, int y, int x]"
  = Some (Raise (MultipleDeclarationsOfAttributes "P"
                   (Parser.duplicated_fields
                      (Syntax.field_of <$>
                         Syntax.mkField "int" Syntax.NoSuffix "x"
                         :: [Syntax.mkField "int" Syntax.NoSuffix "y";
                             Syntax.mkField "int" Syntax.NoSuffix "x";
                             Syntax.mkField "int" Syntax.NoSuffix "y";
                             Syntax.mkField "int" Syntax.NoSuffix "x"])))).
Proof.
  apply (proj1 duplicated_fields_all_listed
           "P: [int x, int y, int x, int y, int x]" "P" None
           (Syntax.mkField "int" Syntax.NoSuffix "x")
           [Syntax.mkField "int" Syntax.NoSuffix "y";
            Syntax.mkField "int" Syntax.NoSuffix "x";
            Syntax.mkField "int" Syntax.NoSuffix "y";
            Syntax.mkField "int" Syntax.NoSuffix "x"] false).
  - vm_compute. reflexivity.
  - apply (bool_decide_unpack _). vm_compute. exact I.
Defined.

(** ** Paths *)

Section paths.

Lemma endswith_refl p : endswith p p = true.
Proof. destruct p; simpl; [done|]. by rewrite Ascii.eqb_refl, String.eqb_refl. Qed.

Lemma endswith_app q p : endswith (q +:+ p) p = true.
Proof.
  induction q as [|c q IH]; [apply endswith_refl|].
  rewrite string_app_cons. simpl. rewrite IH. apply orb_true_r.
Qed.

Lemma endswith_inv s p : endswith s p = true → ∃ q, s = q +:+ p.
Proof.
  induction s as [|c s IH]; cbn [endswith].
  - rewrite orb_false_r. intros <-%String.eqb_eq. by exists "".
  - intros [H|H]%orb_true_iff.
    + apply String.eqb_eq in H as <-. by exists "".
    + destruct (IH H) as [q ->]. by exists (String c q).
Qed.

Lemma last_char_app q c p : last_char (q +:+ String c p) = last_char (String c p).
Proof.
  induction q as [|d q IH]; [done|].
  rewrite string_app_cons.
  change (last_char (String d ?s)) with
    (match s with "" => Some d | _ => last_char s end).
  rewrite IH. by destruct q.
Qed.

Lemma string_app_inv_r a : ∀ b c, a +:+ c = b +:+ c → a = b.
Proof.
  induction a as [|x a IH]; intros b c H.
  - destruct b as [|y b]; [done|].
    apply (f_equal String.length) in H.
    rewrite !string_app_length in H. simpl in H. lia.
  - destruct b as [|y b].
    + apply (f_equal String.length) in H.
      rewrite !string_app_length in H. simpl in H. lia.
    + rewrite !string_app_cons in H. injection H as -> H.
      f_equal. by eapply IH.
Qed.

Lemma substring_app q p : String.substring 0 (String.length q) (q +:+ p) = q.
Proof.
  induction q as [|c q IH]; [by destruct p|].
  rewrite string_app_cons. simpl. by rewrite IH.
Qed.

Lemma drop_last_app q p : drop_last (String.length p) (q +:+ p) = q.
Proof.
  unfold drop_last. rewrite string_app_length.
  replace (String.length q + String.length p - String.length p)
    with (String.length q) by lia.
  apply substring_app.
Qed.

(** A joined path ends with its second component. *)
Lemma path_join_suffix a b : ∃ q, path_join a b = q +:+ b.
Proof.
  unfold path_join. destruct (startswith b "/"); [by exists ""|].
  destruct (_ || _); [by exists a|].
  exists (a +:+ "/"). by rewrite string_app_assoc.
Qed.

Lemma path_join_relative a b :
  startswith b "/" = false →
  path_join a b
  = (if bool_decide (a = "") || endswith a "/" then a else a +:+ "/") +:+ b.
Proof.
  intros H. unfold path_join. rewrite H.
  destruct (_ || _); [done|]. by rewrite string_app_assoc.
Qed.

Lemma infile_name_last src fname :
  endswith fname ".tree" = true → last_char (infile_name src fname) = Some "e"%char.
Proof.
  intros [q ->]%endswith_inv. unfold infile_name.
  destruct (path_join_suffix src (q +:+ ".tree")) as [r ->].
  by rewrite <- string_app_assoc, last_char_app.
Qed.

Lemma outfile_name_last out fname :
  last_char (outfile_name out fname) = Some "y"%char.
Proof.
  unfold outfile_name.
  destruct (path_join_suffix out (drop_last 5 fname +:+ ".py")) as [r ->].
  by rewrite <- string_app_assoc, last_char_app.
Qed.

(** A declaration file is never an output file. *)
Lemma infile_not_outfile src out f g :
  endswith f ".tree" = true → infile_name src f ≠ outfile_name out g.
Proof.
  intros Hf Heq. apply infile_name_last with (src := src) in Hf.
  rewrite Heq, outfile_name_last in Hf. discriminate.
Qed.

Lemma startswith_cons c s p :
  startswith (String c s) (String p "") = Ascii.eqb p c.
Proof.
  unfold startswith. simpl. destruct (Ascii.eqb p c).
  - by apply bool_decide_eq_true_2.
  - apply bool_decide_eq_false_2. by intros [? ?].
Qed.

(** Distinct declaration files of a directory have distinct output files. *)
Lemma outfile_name_inj out f g :
  endswith f ".tree" = true → endswith g ".tree" = true →
  startswith f "/" = false → startswith g "/" = false →
  outfile_name out f = outfile_name out g → f = g.
Proof.
  intros [q ->]%endswith_inv [r ->]%endswith_inv Hf Hg.
  unfold outfile_name.
  rewrite (drop_last_app q ".tree" : drop_last 5 (q +:+ ".tree") = q).
  rewrite (drop_last_app r ".tree" : drop_last 5 (r +:+ ".tree") = r).
  assert (∀ s, startswith (s +:+ ".tree") "/" = false →
               startswith (s +:+ ".py") "/" = false) as Hrel.
  { intros [|c s]; [done|]. by rewrite !string_app_cons, !startswith_cons. }
  rewrite !path_join_relative by auto.
  intros H%(inj (String.append _)).
  by apply string_app_inv_r in H as ->.
Qed.

End paths.

(** ** The files written by [generate] *)

Section files.
Context (src out : string) (writable : string → bool).

Lemma convert_writes update (fs : gmap string string) fname content data :
  fs !! infile_name src fname = Some content →
  Parser.parse (universal_newlines content) = Some (Ok data) →
  update = true ∨ fs !! outfile_name out fname = None →
  writable (outfile_name out fname) = true →
  convert src out update writable fs fname
  = (<[outfile_name out fname :=
         output_text (SourceGenerator.generate_sources data)]> fs, None).
Proof.
  intros Hin Hparse Hcond Hw. unfold convert.
  rewrite Hin, Hparse, Hw.
  destruct Hcond as [->|Hnone].
  - by rewrite andb_false_r.
  - rewrite Hnone. rewrite bool_decide_eq_false_2; [done|].
    by intros [? ?].
Qed.

(** A turn that ends without exception has skipped the file or written
    its output. *)
Lemma convert_done update (fs fs' : gmap string string) fname :
  convert src out update writable fs fname = (fs', None) →
  update = false ∧ is_Some (fs !! outfile_name out fname) ∧ fs' = fs
  ∨ (update = true ∨ fs !! outfile_name out fname = None)
    ∧ writable (outfile_name out fname) = true
    ∧ ∃ content data,
        fs !! infile_name src fname = Some content
        ∧ Parser.parse (universal_newlines content) = Some (Ok data)
        ∧ fs' = <[outfile_name out fname :=
                    output_text (SourceGenerator.generate_sources data)]> fs.
Proof.
  unfold convert. case_bool_decide as Hout; destruct update; simpl.
  - destruct (fs !! infile_name src fname) as [content|]; [|done].
    destruct (Parser.parse _) as [[data|e]|] eqn:E; try done.
    destruct (writable _) eqn:Hw; [|done].
    intros [= <-]. right. split_and!; [by left|done|]. by exists content, data.
  - intros [= <-]. by left.
  - destruct (fs !! infile_name src fname) as [content|]; [|done].
    destruct (Parser.parse _) as [[data|e]|] eqn:E; try done.
    destruct (writable _) eqn:Hw; [|done].
    intros [= <-]. right. split_and!; [by left|done|]. by exists content, data.
  - destruct (fs !! infile_name src fname) as [content|]; [|done].
    destruct (Parser.parse _) as [[data|e]|] eqn:E; try done.
    destruct (writable _) eqn:Hw; [|done].
    intros [= <-]. right. split_and!; [|done|by exists content, data].
    right. by apply eq_None_not_Some.
Qed.

(** A turn that raises has changed nothing; the file was not skipped, and
    it could not be read, did not parse, or its output could not be
    opened. *)
Lemma convert_error update (fs fs' : gmap string string) fname e :
  convert src out update writable fs fname = (fs', Some e) →
  fs' = fs
  ∧ (update = true ∨ fs !! outfile_name out fname = None)
  ∧ (e = NoSuchFile (infile_name src fname)
     ∧ fs !! infile_name src fname = None
     ∨ e = CouldNotAutoGenerate (infile_name src fname)
       ∧ (∃ content err,
            fs !! infile_name src fname = Some content
            ∧ Parser.parse (universal_newlines content) = Some (Raise err))
     ∨ e = CannotOpenOutput (outfile_name out fname)
       ∧ writable (outfile_name out fname) = false
       ∧ ∃ content data,
           fs !! infile_name src fname = Some content
           ∧ Parser.parse (universal_newlines content) = Some (Ok data)).
Proof.
  unfold convert.
  assert (bool_decide (is_Some (fs !! outfile_name out fname)) && negb update = false
          → update = true ∨ fs !! outfile_name out fname = None) as Hskip.
  { intros [H|H]%andb_false_iff.
    - right. apply bool_decide_eq_false_1 in H. by apply eq_None_not_Some.
    - left. by destruct update. }
  destruct (_ && _); [done|]. specialize (Hskip eq_refl).
  destruct (fs !! infile_name src fname) as [content|] eqn:Hin.
  - destruct (Parser.parse _) as [[data|err]|] eqn:Hp.
    + destruct (writable _) eqn:Hw; [done|].
      intros [= <- <-]. split_and!; [done|done|]. right. right.
      split_and!; [done|done|]. by exists content, data.
    + intros [= <- <-]. split_and!; [done|done|]. right. left.
      split; [done|]. by exists content, err.
    + by destruct (parse_total (universal_newlines content)) as [? ?]; simplify_eq.
  - intros [= <- <-]. split_and!; [done|done|]. by left.
Qed.

Lemma convert_changes update (fs : gmap string string) fname path :
  (convert src out update writable fs fname).1 !! path ≠ fs !! path →
  path = outfile_name out fname.
Proof.
  destruct (convert src out update writable fs fname) as [fs' [e|]] eqn:E; simpl.
  - by apply convert_error in E as [-> _].
  - apply convert_done in E as [(_ & _ & ->)|(_ & _ & content & data & _ & _ & ->)];
      [done|].
    intros H. destruct (decide (path = outfile_name out fname)) as [|Hne]; [done|].
    by rewrite lookup_insert_ne in H.
Qed.

Lemma convert_keeps update (fs : gmap string string) fname path :
  is_Some (fs !! path) →
  is_Some ((convert src out update writable fs fname).1 !! path).
Proof.
  destruct (convert src out update writable fs fname) as [fs' [e|]] eqn:E; simpl.
  - by apply convert_error in E as [-> _].
  - apply convert_done in E as [(_ & _ & ->)|(_ & _ & content & data & _ & _ & ->)];
      [done|].
    intros H. destruct (decide (outfile_name out fname = path)) as [<-|Hne].
    + rewrite lookup_insert_eq. by eexists.
    + by rewrite lookup_insert_ne.
Qed.

Lemma convert_all_changes update files :
  ∀ (fs : gmap string string) path,
  (convert_all src out update writable fs files).1 !! path ≠ fs !! path →
  ∃ fname, fname ∈ files ∧ path = outfile_name out fname.
Proof.
  induction files as [|f files IH]; intros fs path; simpl; [done|].
  destruct (convert src out update writable fs f) as [fs1 [e|]] eqn:E; simpl.
  - intros H. exists f. split; [left|].
    apply (convert_changes update fs). by rewrite E.
  - intros H.
    destruct (decide (fs1 !! path = fs !! path)) as [Heq|Hne].
    + rewrite <- Heq in H. destruct (IH _ _ H) as (g & Hg & ->).
      exists g. split; [by right|done].
    + exists f. split; [left|].
      apply (convert_changes update fs). by rewrite E.
Qed.

Lemma convert_all_keeps update files :
  ∀ (fs : gmap string string) path,
  is_Some (fs !! path) →
  is_Some ((convert_all src out update writable fs files).1 !! path).
Proof.
  induction files as [|f files IH]; intros fs path H; simpl; [done|].
  pose proof (convert_keeps update fs f path H) as Hf.
  destruct (convert src out update writable fs f) as [fs1 [e|]]; [done|].
  by apply IH.
Qed.



Lemma convert_update_inv (fs fs' : gmap string string) fname :
  convert src out true writable fs fname = (fs', None) →
  ∃ content data,
    fs !! infile_name src fname = Some content
    ∧ Parser.parse (universal_newlines content) = Some (Ok data)
    ∧ writable (outfile_name out fname) = true
    ∧ fs' = <[outfile_name out fname :=
                output_text (SourceGenerator.generate_sources data)]> fs.
Proof.
  intros [([=] & _)|(_ & Hw & content & data & Hin & Hp & ->)]%convert_done.
  by exists content, data.
Qed.

Lemma convert_all_update_other files :
  ∀ (fs fs' : gmap string string) path,
  convert_all src out true writable fs files = (fs', None) →
  (∀ g, g ∈ files → outfile_name out g ≠ path) →
  fs' !! path = fs !! path.
Proof.
  induction files as [|f files IH]; intros fs fs' path; simpl.
  - by intros [= <-].
  - destruct (convert src out true writable fs f) as [fs1 [e|]] eqn:E; [done|].
    intros Hall Hne.
    rewrite (IH _ _ _ Hall) by (intros g Hg; apply Hne; by right).
    apply convert_update_inv in E as (content & data & _ & _ & _ & ->).
    apply lookup_insert_ne, Hne. by left.
Qed.

(** With [update] set, a run that ends without exception has written, for
    every declaration file, the text generated from it. *)
Lemma convert_all_update files :
  ∀ (fs fs' : gmap string string),
  Forall convertible files →
  convert_all src out true writable fs files = (fs', None) →
  ∀ f, f ∈ files →
  ∃ content data,
    fs !! infile_name src f = Some content
    ∧ Parser.parse (universal_newlines content) = Some (Ok data)
    ∧ writable (outfile_name out f) = true
    ∧ fs' !! outfile_name out f
      = Some (output_text (SourceGenerator.generate_sources data)).
Proof.
  induction files as [|f0 files IH]; intros fs fs' Hok; simpl.
  - by intros _ f ?%elem_of_nil.
  - apply Forall_cons in Hok as [Hok0 Hok].
    destruct (convert src out true writable fs f0) as [fs1 [e|]] eqn:E; [done|].
    intros Hall f Hf.
    destruct (convert_update_inv _ _ _ E) as (c0 & data0 & Hin0 & Hp0 & Hw0 & ->).
    destruct (decide (f ∈ files)) as [Hin|Hnin].
    + destruct (IH _ _ Hok Hall f Hin) as (c & data & Hc & Hp & Hw & Hout).
      exists c, data. split_and!; try done.
      rewrite lookup_insert_ne in Hc; [done|].
      intros Heq. symmetry in Heq. revert Heq. apply infile_not_outfile.
      rewrite Forall_forall in Hok. by apply Hok.
    + apply elem_of_cons in Hf as [->|Hf]; [|done].
      exists c0, data0. split_and!; try done.
      rewrite (convert_all_update_other _ _ _ _ Hall).
      * apply lookup_insert_eq.
      * intros g Hg Heq. apply Hnin.
        rewrite Forall_forall in Hok. destruct (Hok g Hg) as [? ?].
        destruct Hok0 as [? ?].
        by rewrite <- (outfile_name_inj out g f0).
Qed.



Lemma convert_no_update_exists (fs fs' : gmap string string) fname :
  convert src out false writable fs fname = (fs', None) →
  is_Some (fs' !! outfile_name out fname).
Proof.
  intros [(_ & H & ->)|(_ & _ & c & data & _ & _ & ->)]%convert_done; [done|].
  rewrite lookup_insert_eq. by eexists.
Qed.

Lemma convert_all_no_update_exists files :
  ∀ (fs fs' : gmap string string),
  convert_all src out false writable fs files = (fs', None) →
  ∀ f, f ∈ files → is_Some (fs' !! outfile_name out f).
Proof.
  induction files as [|f0 files IH]; intros fs fs'; simpl.
  - by intros _ f ?%elem_of_nil.
  - destruct (convert src out false writable fs f0) as [fs1 [e|]] eqn:E; [done|].
    intros Hall f [->|Hf]%elem_of_cons; [|by eapply IH].
    apply convert_no_update_exists in E.
    pose proof (convert_all_keeps false files fs1 _ E) as H.
    by rewrite Hall in H.
Qed.

Lemma convert_all_skips files (fs : gmap string string) :
  (∀ f, f ∈ files → is_Some (fs !! outfile_name out f)) →
  convert_all src out false writable fs files = (fs, None).
Proof.
  induction files as [|f files IH]; intros H; simpl; [done|].
  unfold convert at 1.
  rewrite bool_decide_eq_true_2 by (apply H; left). simpl.
  apply IH. intros g Hg. apply H. by right.
Qed.

Lemma convert_all_rewrites files (fs : gmap string string) :
  (∀ f, f ∈ files →
     ∃ content data,
       fs !! infile_name src f = Some content
       ∧ Parser.parse (universal_newlines content) = Some (Ok data)
       ∧ writable (outfile_name out f) = true
       ∧ fs !! outfile_name out f
         = Some (output_text (SourceGenerator.generate_sources data))) →
  convert_all src out true writable fs files = (fs, None).
Proof.
  induction files as [|f files IH]; intros H; simpl; [done|].
  destruct (H f) as (content & data & Hin & Hp & Hw & Hout); [left|].
  rewrite (convert_writes true fs f content data Hin Hp) by (done || by left).
  rewrite insert_id by done.
  apply IH. intros g Hg. apply H. by right.
Qed.


End files.

Lemma listing_convertible (listing : list string) :
  Forall (λ fname, startswith fname "/" = false) listing →
  Forall convertible (filter (λ fname, endswith fname ".tree" = true) listing).
Proof.
  intros Hrel. apply Forall_forall. intros g [Hext Hg]%list_elem_of_filter.
  split; [done|]. rewrite Forall_forall in Hrel. by apply Hrel.
Qed.





(** * Further properties of the code *)

(** ** Lexer and parser *)

(** X1: tokens written one after the other with a space after each are
    returned as they were by the lexer, provided each can be a token: a
    name is a non-empty run of word characters that does not begin with
    the keyword, a literal is one of the nine declared. *)
Theorem write_tokenize_round_trip (ts : list token) :
  Forall (λ t, Syntax.lexable t = true) ts →
  tokenize (Syntax.write ts) = Some (Token <$> ts).
Proof.
  intros Hts. rewrite <- (string_app_nil_r (Syntax.write ts)).
  rewrite tokenize_write by done.
  rewrite tokenize_unfold. simpl. by rewrite app_nil_r.
Qed.

Lemma write_tokenize_round_trip_witness :
  tokenize (Syntax.write [NAME "Foo"; LITERAL "("; NAME "Bar"; LITERAL ")";
                          LITERAL ":"; INHERIT])
  = Some (Token <$> [NAME "Foo"; LITERAL "("; NAME "Bar"; LITERAL ")";
                     LITERAL ":"; INHERIT]).
Proof.
  apply (write_tokenize_round_trip
           [NAME "Foo"; LITERAL "("; NAME "Bar"; LITERAL ")"; LITERAL ":"; INHERIT]).
  repeat constructor.
Defined.

Section acceptance.
Import Parser Syntax.

Lemma p_declaration_Ok_iff seen d :
  (∃ r, p_declaration seen (d_name d) (d_parent d) (fields_of (d_body d)) = Ok r)
  ↔ d_name d ∉ seen ∧ passes_own_checks d.
Proof.
  unfold passes_own_checks. split.
  - intros [[seen' def] H]. pose proof H as H'.
    apply p_declaration_Ok in H' as (Hn & _ & _). split; [done|].
    rewrite p_declaration_fresh in H by done.
    destruct (d_body d) as [| |first more tc|] eqn:Hb.
    + constructor.
    + constructor.
    + cbn [fields_of body_fields] in *.
      destruct (duplicated_fields _) eqn:E; [|done].
      apply duplicated_fields_nil in E. by rewrite field_name_field_of in E.
    + cbn [fields_of] in H. by destruct (d_parent d).
  - intros [Hn Hok]. rewrite p_declaration_fresh by done.
    destruct (d_body d) as [| |first more tc|] eqn:Hb.
    + by eexists.
    + by eexists.
    + cbn [fields_of body_fields] in *.
      rewrite <- field_name_field_of in Hok.
      apply duplicated_fields_nil in Hok. rewrite Hok. by eexists.
    + cbn [fields_of]. destruct Hok as [p ->]. by eexists.
Qed.

Lemma declare_all_Ok_iff ds : ∀ seen acc,
  (∃ defs, declare_all seen acc ds = Ok defs)
  ↔ NoDup (d_name <$> ds)
    ∧ (∀ d, d ∈ ds → d_name d ∉ seen)
    ∧ Forall passes_own_checks ds.
Proof.
  induction ds as [|d ds IH]; intros seen acc.
  - simpl. split; [|by eexists]. intros _. split_and!.
    + constructor.
    + by intros d ?%elem_of_nil.
    + constructor.
  - cbn [declare_all]. rewrite fmap_cons, NoDup_cons, Forall_cons.
    destruct (p_declaration _ _ _ _) as [[seen' def]|e] eqn:E.
    + pose proof (proj1 (p_declaration_Ok_iff seen d) (ex_intro _ _ E)) as [Hn Hok].
      apply p_declaration_Ok in E as (_ & -> & _).
      change (mbind ?f (Ok ?x)) with (f x). cbv beta iota.
      rewrite IH. split.
      * intros (Hnd & Hfresh & Hall). split_and!; try done.
        -- intros (d' & Heq & Hd')%list_elem_of_fmap.
           apply (Hfresh d' Hd'). rewrite <- Heq. set_solver.
        -- intros d' [->|Hd']%elem_of_cons; [done|].
           specialize (Hfresh d' Hd'). set_solver.
      * intros ((Hnin & Hnd) & Hfresh & _ & Hall). split_and!; try done.
        intros d' Hd'. apply not_elem_of_union. split.
        -- apply Hfresh. by right.
        -- apply not_elem_of_singleton. intros Heq. apply Hnin.
           rewrite <- Heq. by apply list_elem_of_fmap_2.
    + change (mbind ?f (Raise ?x)) with (@Raise (list Definition_) x).
      split; [by intros [? ?]|].
      intros ((Hnin & Hnd) & Hfresh & Hok & Hall). exfalso.
      assert (∃ r, p_declaration seen (d_name d) (d_parent d)
                     (fields_of (d_body d)) = Ok r) as [r Hr].
      { apply p_declaration_Ok_iff. split; [|done]. apply Hfresh. by left. }
      congruence.
Qed.

End acceptance.

(** X2: a text that reads as declarations is accepted exactly when the
    names of the declarations differ from each other and each declaration
    passes its own checks (distinct field names, or a parent in the inherit
    form); what is then returned is one [Definition] for each declaration,
    in the order of the text. *)
Theorem parse_accepts_iff (text : string) (ds : list Syntax.declaration) :
  reads text ds →
  ((∃ defs, Parser.parse text = Some (Ok defs))
   ↔ NoDup (Syntax.d_name <$> ds) ∧ Forall passes_own_checks ds)
  ∧ (∀ defs, Parser.parse text = Some (Ok defs) → defs = definition_of <$> ds).
Proof.
  intros Hreads. rewrite (parse_reads _ _ Hreads). split.
  - pose proof (declare_all_Ok_iff ds ∅ []) as Hiff. split.
    + intros [defs [= H]]. destruct (proj1 Hiff (ex_intro _ _ H)) as (? & _ & ?).
      done.
    + intros [Hnd Hall]. destruct (proj2 Hiff) as [defs ->]; [|by eexists].
      split_and!; done.
  - intros defs [= H]. by apply declare_all_Ok in H.
Qed.

Lemma parse_accepts_iff_witness :
  ((∃ defs, Parser.parse "Node
Leaf(Node): inherit" = Some (Ok defs))
   ↔ NoDup (Syntax.d_name <$>
              [Syntax.mkDeclaration "Node" None Syntax.NoClause;
               Syntax.mkDeclaration "Leaf" (Some "Node") Syntax.InheritForm])
     ∧ Forall passes_own_checks
         [Syntax.mkDeclaration "Node" None Syntax.NoClause;
          Syntax.mkDeclaration "Leaf" (Some "Node") Syntax.InheritForm])
  ∧ (∀ defs, Parser.parse "Node
Leaf(Node): inherit" = Some (Ok defs) →
       defs = definition_of <$>
                [Syntax.mkDeclaration "Node" None Syntax.NoClause;
                 Syntax.mkDeclaration "Leaf" (Some "Node") Syntax.InheritForm]).
Proof.
  apply (parse_accepts_iff "Node
Leaf(Node): inherit"
           [Syntax.mkDeclaration "Node" None Syntax.NoClause;
            Syntax.mkDeclaration "Leaf" (Some "Node") Syntax.InheritForm]).
  vm_compute. reflexivity.
Defined.

(** X3: the outcome of parsing depends on the declarations only through
    the name, the parent and the fields of each: a comma before the closing
    bracket of a field list, or [: []] written where the clause could be
    left out, changes neither the definitions returned nor the error
    raised. *)
Theorem parse_same_definitions (text text' : string) (ds ds' : list Syntax.declaration) :
  reads text ds → reads text' ds' →
  definition_of <$> ds = definition_of <$> ds' →
  Parser.parse text = Parser.parse text'.
Proof.
  intros Hr Hr' Heq.
  rewrite (parse_reads _ _ Hr), (parse_reads _ _ Hr'). f_equal.
  clear Hr Hr'.
  generalize (∅ : gset string) ([] : list Definition_).
  revert ds' Heq.
  induction ds as [|d ds IH]; intros [|d' ds'] Heq seen acc; try done.
  rewrite !fmap_cons in Heq. injection Heq as Hn Hp Hf Heq.
  simpl. rewrite Hn, Hp, Hf.
  destruct (Parser.p_declaration _ _ _ _) as [[seen' def]|e]; [|done].
  simpl. by apply IH.
Qed.

Lemma parse_same_definitions_witness :
  Parser.parse "Pair: [int x, int y,]
Leaf: []"
  = Parser.parse "Pair:[int x,int y] Leaf".
Proof.
  apply (parse_same_definitions _ _
           [Syntax.mkDeclaration "Pair" None
              (Syntax.Fields (Syntax.mkField "int" Syntax.NoSuffix "x")
                 [Syntax.mkField "int" Syntax.NoSuffix "y"] true);
            Syntax.mkDeclaration "Leaf" None Syntax.EmptyList]
           [Syntax.mkDeclaration "Pair" None
              (Syntax.Fields (Syntax.mkField "int" Syntax.NoSuffix "x")
                 [Syntax.mkField "int" Syntax.NoSuffix "y"] false);
            Syntax.mkDeclaration "Leaf" None Syntax.NoClause]).
  - vm_compute. reflexivity.
  - vm_compute. reflexivity.
  - reflexivity.
Defined.

(** ** Comment removal, line by line *)

Section lines.

Lemma split_lines_one_line s : Forall one_line (split_lines s).
Proof.
  induction s as [|c s IH]; [by repeat constructor|].
  cbn [split_lines].
  destruct (Ascii.eqb c Chars.newline) eqn:Hc; [by constructor|].
  destruct (split_lines s) as [|line more]; [by repeat constructor; unfold one_line; cbn [Repr.contains]; rewrite Ascii.eqb_sym, Hc|].
  apply Forall_cons in IH as [Hl Hm]. constructor; [|done].
  unfold one_line in *. cbn [Repr.contains]. by rewrite Ascii.eqb_sym, Hc, Hl.
Qed.

Lemma cut_comment_one_line line : one_line line → one_line (cut_comment line).
Proof.
  unfold one_line. induction line as [|c line IH]; [done|].
  cbn [Repr.contains cut_comment]. intros [Hc Hl]%orb_false_iff.
  destruct (Ascii.eqb c Chars.hash); [done|].
  cbn [Repr.contains]. by rewrite Hc, IH.
Qed.

Lemma split_lines_line line : one_line line → split_lines line = [line].
Proof.
  unfold one_line. induction line as [|c line IH]; [done|].
  cbn [Repr.contains split_lines]. intros [Hc Hl]%orb_false_iff.
  rewrite Ascii.eqb_sym in Hc. by rewrite Hc, IH.
Qed.

Lemma split_lines_app line text :
  one_line line →
  split_lines (line +:+ nl +:+ text) = line :: split_lines text.
Proof.
  unfold one_line. induction line as [|c line IH]; [done|].
  cbn [Repr.contains]. intros [Hc Hl]%orb_false_iff.
  rewrite string_app_cons. cbn [split_lines].
  rewrite Ascii.eqb_sym in Hc. by rewrite Hc, IH.
Qed.

Lemma split_lines_join ls :
  ls ≠ [] → Forall one_line ls → split_lines (join nl ls) = ls.
Proof.
  induction ls as [|l ls IH]; [done|]. intros _ [Hl Hls]%Forall_cons.
  destruct ls as [|l' ls]; [by apply split_lines_line|].
  change (join nl (l :: l' :: ls)) with (l +:+ nl +:+ join nl (l' :: ls)).
  by rewrite split_lines_app, IH.
Qed.

Lemma strip_comments_length text : ∀ b,
  String.length (strip_comments b text) ≤ String.length text.
Proof.
  induction text as [|c text IH]; intros b; [done|].
  cbn [strip_comments].
  pose proof (IH true). pose proof (IH false).
  destruct b, (Ascii.eqb c Chars.newline), (Ascii.eqb c Chars.hash); simpl; lia.
Qed.

End lines.

(** X4: [remove_comments] keeps the lines of the text and cuts each at its
    first ['#']: the result has the same number of lines, so the line
    counted by the lexer is the line of the original text; it is never
    longer than the text, and a text without ['#'] is returned as it is. *)
Theorem remove_comments_line_by_line (text : string) :
  split_lines (remove_comments text) = cut_comment <$> split_lines text
  ∧ length (split_lines (remove_comments text)) = length (split_lines text)
  ∧ String.length (remove_comments text) ≤ String.length text
  ∧ (Repr.contains Chars.hash text = false → remove_comments text = text).
Proof.
  assert (split_lines (remove_comments text) = cut_comment <$> split_lines text) as H.
  { rewrite remove_comments_without_comments. unfold without_comments.
    apply split_lines_join.
    - destruct (split_lines_cons text) as (l & m & ->). done.
    - apply Forall_fmap. eapply Forall_impl; [apply split_lines_one_line|].
      intros l. apply cut_comment_one_line. }
  split_and!.
  - done.
  - by rewrite H, length_fmap.
  - apply strip_comments_length.
  - apply strip_comments_id.
Qed.

Lemma remove_comments_line_by_line_witness :
  remove_comments "A: [int x]
B(A): inherit" = "A: [int x]
B(A): inherit".
Proof.
  apply (proj2 (proj2 (proj2 (remove_comments_line_by_line "A: [int x]
B(A): inherit")))).
  vm_compute. reflexivity.
Defined.
(** ** What the lexer returns *)

Section lexer.

Lemma strip_prefix_Some p : ∀ s r, strip_prefix p s = Some r → s = p +:+ r.
Proof.
  induction p as [|a p IH]; intros s r; simpl.
  - by intros [= ->].
  - destruct s as [|b s]; [done|].
    destruct (Ascii.eqb_spec a b) as [->|]; [|done].
    intros H. rewrite string_app_cons. f_equal. by apply IH.
Qed.

Lemma strip_prefix_app p : ∀ w r x,
  strip_prefix p w = Some x → strip_prefix p (w +:+ r) = Some (x +:+ r).
Proof.
  induction p as [|a p IH]; intros w r x; simpl.
  - by intros [= ->].
  - destruct w as [|b w]; [done|]. rewrite string_app_cons.
    destruct (Ascii.eqb a b); [apply IH|done].
Qed.

Lemma span_word_spec s :
  s = (span_word s).1 +:+ (span_word s).2
  ∧ Syntax.all_word (span_word s).1 = true.
Proof.
  induction s as [|c s [IH1 IH2]]; [done|].
  cbn [span_word]. destruct (Chars.is_word c) eqn:Hc; [|done].
  destruct (span_word s) as [w r]. simpl in *.
  rewrite Hc. split; [|done]. rewrite string_app_cons. by f_equal.
Qed.

Lemma suffix_of_refl s : suffix_of s s.
Proof. by exists "". Qed.

Lemma suffix_of_app a rest s : suffix_of (a +:+ rest) s → suffix_of rest s.
Proof.
  intros [before ->]. exists (before +:+ a). by rewrite string_app_assoc.
Qed.

Lemma suffix_of_cons c rest s : suffix_of (String c rest) s → suffix_of rest s.
Proof. apply (suffix_of_app (String c "")). Qed.

Lemma tokens_then_error_cons s s' t l :
  Syntax.lexable t = true → suffix_of s' s →
  tokens_then_error s' l → tokens_then_error s (Token t :: l).
Proof.
  intros Ht Hs (ts & tail & -> & Hts & Htail).
  exists (t :: ts), tail. split_and!; [done|by constructor|].
  destruct Htail as [->|(c & rest & -> & Hsuf & H)]; [by left|].
  right. exists c, rest. split_and!; try done; try apply H.
  destruct Hsuf as [b1 ->], Hs as [b2 ->].
  exists (b2 +:+ b1). by rewrite string_app_assoc.
Qed.

Lemma tokens_then_error_skip s s' l :
  suffix_of s' s → tokens_then_error s' l → tokens_then_error s l.
Proof.
  intros Hs (ts & tail & -> & Hts & Htail).
  exists ts, tail. split_and!; [done|done|].
  destruct Htail as [->|(c & rest & -> & Hsuf & H)]; [by left|].
  right. exists c, rest. split_and!; try done; try apply H.
  destruct Hsuf as [b1 ->], Hs as [b2 ->].
  exists (b2 +:+ b1). by rewrite string_app_assoc.
Qed.

Lemma tokenize_spec n : ∀ s l,
  String.length s < n → tokenize s = Some l → tokens_then_error s l.
Proof.
  induction n as [|n IH]; intros s l Hlen; [lia|].
  rewrite tokenize_unfold. destruct s as [|c s].
  { intros [= <-]. exists [], []. split_and!; [done|constructor|by left]. }
  simpl in Hlen. unfold lex_turn.
  destruct (Chars.is_ignore c) eqn:Hi.
  { intros H. eapply tokens_then_error_skip; [|apply (IH s); [lia|done]].
    by exists (String c ""). }
  destruct (Ascii.eqb_spec c Chars.newline) as [Hnl|Hnl].
  { intros H. eapply tokens_then_error_skip; [|apply (IH s); [lia|done]].
    by exists (String c ""). }
  destruct (strip_prefix "inherit" (String c s)) as [rest'|] eqn:E.
  { pose proof (strip_prefix_length _ _ _ E) as Hl. simpl in Hl.
    apply strip_prefix_Some in E.
    destruct (tokenize rest') as [l'|] eqn:Hr; [|done].
    intros [= <-]. eapply tokens_then_error_cons; [done| |apply (IH rest'); [lia|done]].
    by exists "inherit". }
  destruct (Chars.is_word c) eqn:Hw.
  { destruct (span_word (String c s)) as [w r] eqn:Hsp.
    pose proof (span_word_spec (String c s)) as [Happ Hall].
    pose proof (span_word_length s) as Hl.
    rewrite Hsp in Happ, Hall. simpl in Happ, Hall.
    cbn [span_word] in Hsp. rewrite Hw in Hsp.
    destruct (span_word s) as [w' r'] eqn:Hsp'. simpl in Hl.
    injection Hsp as <- <-.
    destruct (tokenize r') as [l'|] eqn:Hr; [|done].
    intros [= <-].
    eapply tokens_then_error_cons; [| |apply (IH r'); [lia|done]].
    - unfold Syntax.lexable, Syntax.is_name.
      apply andb_true_intro. split; [apply andb_true_intro; split; [done|exact Hall]|].
      apply negb_true_iff. apply bool_decide_eq_false.
      intros [x Hx]. apply (strip_prefix_app _ _ r') in Hx.
      rewrite <- Happ in Hx. congruence.
    - by exists (String c w'). }
  destruct (Chars.is_literal c) eqn:Hlit.
  { destruct (tokenize s) as [l'|] eqn:Hr; [|done].
    intros [= <-]. eapply tokens_then_error_cons; [done| |apply (IH s); [lia|done]].
    by exists (String c ""). }
  intros [= <-]. exists [], [Illegal (String c s)].
  split_and!; [done|constructor|]. right. exists c, s.
  split_and!; try done. apply suffix_of_refl.
Qed.

Lemma tokenize_returns s : ∃ l, tokenize s = Some l ∧ tokens_then_error s l.
Proof.
  destruct (tokenize_total s) as [l Hl]. exists l. split; [done|].
  by apply (tokenize_spec (S (String.length s))); [lia|].
Qed.

End lexer.
(** X5: on every text of ASCII characters the lexer ends, and what it
    returns is a run of tokens, then nothing or one report of the text it
    could not cut, after which it stops.  Every [NAME] returned is a
    non-empty run of ASCII letters, digits and underscores that does not
    begin with [inherit] (the keyword rule is tried first), every literal
    is one of the nine declared, and the text reported is what is left of
    the input from a character that is neither ignored, nor a newline, a
    word character or a literal. *)
Theorem lexer_returns (s : string) :
  ascii_text s = true →
  ∃ ts tail,
    tokenize s = Some ((Token <$> ts) ++ tail)
    ∧ Forall (λ t, Syntax.lexable t = true) ts
    ∧ (tail = [] ∨
       ∃ c rest,
         tail = [Illegal (String c rest)]
         ∧ suffix_of (String c rest) s
         ∧ Chars.is_ignore c = false ∧ c ≠ Chars.newline
         ∧ Chars.is_word c = false ∧ Chars.is_literal c = false).
Proof.
  intros _. destruct (tokenize_returns s) as (l & Hl & ts & tail & -> & H).
  by exists ts, tail.
Qed.

Lemma lexer_returns_witness :
  ∃ ts tail,
    tokenize "Leaf(Node): [int* xs] $ rest" = Some ((Token <$> ts) ++ tail)
    ∧ Forall (λ t, Syntax.lexable t = true) ts
    ∧ (tail = [] ∨
       ∃ c rest,
         tail = [Illegal (String c rest)]
         ∧ suffix_of (String c rest) "Leaf(Node): [int* xs] $ rest"
         ∧ Chars.is_ignore c = false ∧ c ≠ Chars.newline
         ∧ Chars.is_word c = false ∧ Chars.is_literal c = false).
Proof.
  apply (lexer_returns "Leaf(Node): [int* xs] $ rest").
  vm_compute. reflexivity.
Defined.

Section lex_errors.
Import Parser.

Lemma step_not_lex_error st t rest :
  step st t ≠ Raise (UnableToGenerateTokens rest).
Proof.
  unfold step, reduce_declaration, p_declaration.
  destruct (completed (at_position st)) as [[[n p] fs]|];
    destruct t; simpl;
    repeat (case_bool_decide || case_match); simpl; try done.
Qed.

Lemma finish_not_lex_error st rest :
  finish st ≠ Raise (UnableToGenerateTokens rest).
Proof.
  unfold finish, reduce_declaration, p_declaration.
  destruct (at_position st); simpl; try done;
    repeat (case_bool_decide || case_match); simpl; try done.
Qed.

Lemma drive_lex_error input : ∀ st rest,
  drive st input = Raise (UnableToGenerateTokens rest) → Illegal rest ∈ input.
Proof.
  induction input as [|[t|r] input IH]; intros st rest; simpl.
  - intros H. by apply finish_not_lex_error in H.
  - destruct (step st t) as [st'|e] eqn:E; simpl.
    + intros H. right. by eapply IH.
    + intros [= ->]. by apply step_not_lex_error in E.
  - intros [= ->]. left.
Qed.

End lex_errors.

(** X6: when parsing fails because no token can be produced, the error
    carries the text, comments removed, from the offending character to
    the end; that character is none the lexer knows. *)
Theorem lex_error_reports_rest (text rest : string) :
  Parser.parse text = Some (Raise (UnableToGenerateTokens rest)) →
  suffix_of rest (remove_comments text)
  ∧ ∃ c rest', rest = String c rest'
      ∧ Chars.is_ignore c = false ∧ c ≠ Chars.newline
      ∧ Chars.is_word c = false ∧ Chars.is_literal c = false.
Proof.
  unfold Parser.parse.
  destruct (tokenize_returns (remove_comments text))
    as (l & -> & ts & tail & -> & _ & Htail).
  simpl. intros [= H]. apply drive_lex_error in H.
  apply elem_of_app in H as [H|H].
  - apply list_elem_of_fmap in H as (t & [=] & _).
  - destruct Htail as [->|(c & rest' & -> & Hsuf & Hc)];
      [by apply elem_of_nil in H|].
    apply list_elem_of_singleton in H as [= ->].
    split; [done|]. by exists c, rest'.
Qed.

Lemma lex_error_reports_rest_witness :
  suffix_of "$x]  " (remove_comments "A: [int $x]  # a dollar")
  ∧ ∃ c rest', "$x]  " = String c rest'
      ∧ Chars.is_ignore c = false ∧ c ≠ Chars.newline
      ∧ Chars.is_word c = false ∧ Chars.is_literal c = false.
Proof.
  apply (lex_error_reports_rest "A: [int $x]  # a dollar" "$x]  ").
  vm_compute. reflexivity.
Defined.
(** ** The moves of the parser *)

Section moves.
Import Parser.

Local Ltac literal_cases c :=
  repeat match goal with
         | |- context [Ascii.eqb c ?x] =>
             destruct (Ascii.eqb_spec c x) as [->|?]; simpl
         end.

(** A step that succeeds reduces the declaration that is complete and
    starts the next one, or is one of the [shifts]. *)
Lemma step_Ok st t st' :
  step st t = Ok st' →
  (∃ n p fs n' seen def,
     completed (at_position st) = Some (n, p, fs)
     ∧ t = NAME n'
     ∧ p_declaration (seen_node_names st) n p fs = Ok (seen, def)
     ∧ st' = mkState seen (declarations st ++ [def]) (AfterName n'))
  ∨ (shifts (at_position st) t (at_position st')
     ∧ seen_node_names st' = seen_node_names st
     ∧ declarations st' = declarations st).
Proof.
  destruct st as [seen decls pos]. unfold step, reduce_declaration.
  destruct pos; destruct t as [|v|c]; simpl; try done;
    try (destruct (p_declaration seen _ _ _) as [[seen' def]|e] eqn:E;
         [|done]; simpl; intros [= <-]; left; by eexists _, _, _, _, _, _);
    literal_cases c; try done; intros [= <-]; right; simpl;
    (split_and!; [|done|done]); try by constructor.
  - by apply (shift_suffix _ _ _ _ Syntax.Question).
  - by apply (shift_suffix _ _ _ _ Syntax.Plus).
  - by apply (shift_suffix _ _ _ _ Syntax.Star).
Qed.

Lemma finish_Ok st defs :
  finish st = Ok defs →
  (at_position st = AtDeclaration ∧ defs = declarations st)
  ∨ (∃ n p fs seen def,
       completed (at_position st) = Some (n, p, fs)
       ∧ p_declaration (seen_node_names st) n p fs = Ok (seen, def)
       ∧ defs = declarations st ++ [def]).
Proof.
  destruct st as [seen decls pos]. unfold finish, reduce_declaration.
  destruct pos; simpl; try done;
    try (intros [= <-]; by left);
    destruct (p_declaration seen _ _ _) as [[seen' def]|e] eqn:E; try done;
    simpl; intros [= <-]; right; by eexists _, _, _, _, _.
Qed.

Lemma drive_Ok_tokens input : ∀ st defs,
  drive st input = Ok defs → ∃ ts, input = Token <$> ts.
Proof.
  induction input as [|[t|r] input IH]; intros st defs; simpl.
  - by exists [].
  - destruct (step st t) as [st'|e]; [|done]. simpl.
    intros (ts & ->)%IH. by exists (t :: ts).
  - done.
Qed.

End moves.

Section invariants.
Import Parser.

(** A property of the tokens read and of the state that every successful
    step keeps holds when the input has been read. *)
Lemma drive_invariant (I : list token → state → Prop) ts :
  (∀ pre st t st', I pre st → step st t = Ok st' → I (pre ++ [t]) st') →
  ∀ pre st defs,
  I pre st → drive st (Token <$> ts) = Ok defs →
  ∃ st', I (pre ++ ts) st' ∧ finish st' = Ok defs.
Proof.
  intros Hstep. induction ts as [|t ts IH]; intros pre st defs HI; simpl.
  - intros H. exists st. by rewrite app_nil_r.
  - destruct (step st t) as [st1|e] eqn:E; [|done]. simpl. intros H.
    destruct (IH (pre ++ [t]) st1 defs) as (st' & HI' & Hf); [by eapply Hstep|done|].
    exists st'. by rewrite <- app_assoc in HI'.
Qed.

Lemma p_declaration_valid seen n p fs seen' def :
  p_declaration seen n p fs = Ok (seen', def) →
  n ∉ seen ∧ seen' = seen ∪ {[n]} ∧ name def = n ∧ valid_definition def.
Proof.
  intros H. pose proof H as (Hn & -> & ->)%p_declaration_Ok.
  split_and!; try done.
  rewrite p_declaration_fresh in H by done.
  unfold valid_definition. simpl. destruct fs as [li|].
  - apply duplicated_fields_nil. by destruct (duplicated_fields li).
  - by destruct p.
Qed.

Lemma checked_reduce st n p fs seen def :
  checked st →
  p_declaration (seen_node_names st) n p fs = Ok (seen, def) →
  seen = list_to_set (name <$> declarations st ++ [def])
  ∧ NoDup (name <$> declarations st ++ [def])
  ∧ Forall valid_definition (declarations st ++ [def]).
Proof.
  intros (Hseen & Hnd & Hall) (Hn & -> & Hname & Hvalid)%p_declaration_valid.
  rewrite fmap_app. simpl. rewrite Hname. split_and!.
  - rewrite list_to_set_app_L, Hseen. set_solver.
  - apply NoDup_app. split_and!; [done| |apply NoDup_singleton].
    intros x Hx ->%list_elem_of_singleton. apply Hn.
    rewrite Hseen. by apply elem_of_list_to_set.
  - apply Forall_app. split; [done|]. by constructor.
Qed.

Lemma checked_step st t st' : checked st → step st t = Ok st' → checked st'.
Proof.
  intros Hst [(n & p & fs & n' & seen & def & _ & _ & Hd & ->)
             |(_ & Hs & Hd)]%step_Ok.
  - by eapply checked_reduce.
  - unfold checked. by rewrite Hs, Hd.
Qed.

Lemma checked_step_any (pre : list token) st t st' :
  checked st → step st t = Ok st' → checked st'.
Proof. apply checked_step. Qed.

End invariants.
(** X7: whatever the text, the definitions [Parser.parse] returns have
    names that differ from each other, and each of them is valid: with the
    inherit marker it has a parent, with a field list its field names
    differ from each other. *)
Theorem parse_returns_valid (text : string) (defs : list Definition_) :
  Parser.parse text = Some (Ok defs) →
  NoDup (name <$> defs) ∧ Forall valid_definition defs.
Proof.
  unfold Parser.parse, Parser.parse_tokens.
  destruct (tokenize (remove_comments text)) as [input|]; [|done].
  simpl. intros [= H].
  destruct (drive_Ok_tokens _ _ _ H) as [ts ->].
  destruct (drive_invariant (λ _ st, checked st) ts checked_step_any
              [] Parser.initial defs) as (st & Hst & Hfin); [|done|].
  { split_and!; [done|constructor|constructor]. }
  apply finish_Ok in Hfin as [[_ ->]|(n & p & fs & seen & def & _ & Hd & ->)].
  - apply Hst.
  - by eapply checked_reduce.
Qed.

Lemma parse_returns_valid_witness :
  NoDup (name <$> [mkDefinition "Node" None (FieldList [("x", "int", NEEDED)]);
                   mkDefinition "Leaf" (Some "Node") Inherit])
  ∧ Forall valid_definition
      [mkDefinition "Node" None (FieldList [("x", "int", NEEDED)]);
       mkDefinition "Leaf" (Some "Node") Inherit].
Proof.
  apply (parse_returns_valid "Node: [int x]
Leaf(Node): inherit").
  vm_compute. reflexivity.
Defined.

(** ** The texts the parser accepts *)

Section grammar.
Import Parser Syntax.

Lemma field_read_reading n p before f l :
  started before l →
  reading (field_read n p before (field_of f))
    (head_tokens n p ++ [LITERAL ":"; LITERAL "["] ++ l ++ field_tokens f).
Proof.
  destruct before as [[first more]|]; simpl.
  - intros (f0 & fs & -> & -> & ->).
    exists f0, (fs ++ [f]). split_and!; [done|by rewrite fmap_app|].
    unfold list_tokens. rewrite flat_map_app. simpl.
    rewrite app_nil_r. by rewrite <- !app_assoc.
  - intros ->. exists f, []. split_and!; try done.
    unfold list_tokens. simpl. by rewrite app_nil_r.
Qed.

Lemma shifts_reading pos t pos' toks :
  shifts pos t pos' → reading pos toks → reading pos' (toks ++ [t]).
Proof.
  destruct 1 as [n|n|n|n p|n p|n p|n p|n p|n p|n p ty|n p before ty s Hs
                |n p before ty nm|n p before ty m nm|n p first more
                |n p first more|n p first more|n p first more ty];
    cbn [reading].
  - by intros ->.
  - by intros ->.
  - by intros ->.
  - by intros ->.
  - by intros ->.
  - by intros [_ ->].
  - intros ->. exists InheritForm. by rewrite <- app_assoc.
  - intros ->. by rewrite <- app_assoc.
  - intros ->. exists EmptyList. by rewrite <- app_assoc.
  - intros ->. exists []. by rewrite <- app_assoc.
  - intros (l & Hl & ->). exists l, s. split_and!; try done.
    by repeat (rewrite <- app_assoc; simpl).
  - intros (l & Hl & ->).
    pose proof (field_read_reading n p before (mkField ty NoSuffix nm) l Hl) as H.
    replace ((head_tokens n p ++ [LITERAL ":"; LITERAL "["] ++ l ++ [NAME ty])
             ++ [NAME nm])
      with (head_tokens n p ++ [LITERAL ":"; LITERAL "["] ++ l
            ++ field_tokens (mkField ty NoSuffix nm)); [exact H|].
    unfold field_tokens. by repeat (rewrite <- app_assoc; simpl).
  - intros (l & s & Hl & Hs & -> & ->).
    pose proof (field_read_reading n p before (mkField ty s nm) l Hl) as H.
    replace ((head_tokens n p ++ [LITERAL ":"; LITERAL "["] ++ l
              ++ [NAME ty; LITERAL (default " "%char (suffix_char s))])
             ++ [NAME nm])
      with (head_tokens n p ++ [LITERAL ":"; LITERAL "["] ++ l
            ++ field_tokens (mkField ty s nm)); [exact H|].
    unfold field_tokens. destruct s; [done| | |];
      simpl; by repeat (rewrite <- app_assoc; simpl).
  - intros (f & fs & -> & -> & ->). exists f, fs.
    split_and!; try done. by repeat (rewrite <- app_assoc; simpl).
  - intros (f & fs & -> & -> & ->). exists (Fields f fs false).
    split_and!; try done. by repeat (rewrite <- app_assoc; simpl).
  - intros (f & fs & -> & -> & ->). exists (Fields f fs true).
    split_and!; try done. by repeat (rewrite <- app_assoc; simpl).
  - intros (f & fs & -> & -> & ->). exists (list_tokens f fs ++ [LITERAL ","]).
    split; [by exists f, fs|]. by repeat (rewrite <- app_assoc; simpl).
Qed.

Lemma completed_reading pos toks n p fs :
  reading pos toks → completed pos = Some (n, p, fs) →
  ∃ d, toks = declaration_tokens d ∧ mkDefinition n p fs = definition_of d.
Proof.
  destruct pos; simpl; try done.
  - intros -> [= <- <- <-]. by exists (mkDeclaration n0 None NoClause).
  - intros [[q ->] ->] [= <- <- <-]. by exists (mkDeclaration n0 (Some q) NoClause).
  - intros (b & Hb & -> & ->) [= <- <- <-]. exists (mkDeclaration n0 p0 b).
    split; [done|]. unfold definition_of. simpl. by destruct b.
Qed.

Lemma reads_so_far_step pre st t st' :
  reads_so_far pre st → step st t = Ok st' → reads_so_far (pre ++ [t]) st'.
Proof.
  intros (ds & toks & -> & Hr & Hd)
         [(n & p & fs & n' & seen & def & Hc & -> & Hp & ->)
         |(Hs & _ & Hd')]%step_Ok.
  - destruct (completed_reading _ _ _ _ _ Hr Hc) as (d & -> & Hdef).
    exists (ds ++ [d]), [NAME n']. split_and!.
    + rewrite flat_map_app. cbn [flat_map]. by rewrite app_nil_r.
    + done.
    + simpl. rewrite fmap_app, Hd. simpl. do 2 f_equal.
      apply p_declaration_Ok in Hp as (_ & _ & ->). done.
  - exists ds, (toks ++ [t]). split_and!.
    + by rewrite app_assoc.
    + by apply (shifts_reading _ _ _ _ Hs).
    + by rewrite Hd'.
Qed.

(** The parser accepts the sentences of the grammar only, and returns the
    definitions of their declarations. *)
Lemma parse_tokens_Ok_grammar input defs :
  parse_tokens input = Ok defs →
  ∃ ds, input = tokens ds ∧ defs = definition_of <$> ds.
Proof.
  unfold parse_tokens. intros H.
  destruct (drive_Ok_tokens _ _ _ H) as [ts ->].
  destruct (drive_invariant reads_so_far ts reads_so_far_step [] initial defs)
    as (st & (ds & toks & Hts & Hr & Hd) & Hfin); [|done|].
  { exists [], []. by split_and!. }
  simpl in Hts. subst ts.
  apply finish_Ok in Hfin as [[Hpos ->]|(n & p & fs & seen & def & Hc & Hp & ->)].
  - rewrite Hpos in Hr. simpl in Hr. subst toks.
    exists ds. by rewrite app_nil_r.
  - destruct (completed_reading _ _ _ _ _ Hr Hc) as (d & -> & Hdef).
    exists (ds ++ [d]). split.
    + unfold tokens. rewrite flat_map_app. cbn [flat_map]. by rewrite app_nil_r.
    + rewrite fmap_app, Hd. simpl. do 2 f_equal.
      apply p_declaration_Ok in Hp as (_ & _ & ->). done.
Qed.

End grammar.

Section accepted.
Import Parser Syntax.

(** A text that is accepted reads as declarations of the grammar. *)
Lemma parse_Ok_reads text defs :
  parse text = Some (Ok defs) →
  ∃ ds, reads text ds ∧ defs = definition_of <$> ds.
Proof.
  unfold parse, reads.
  destruct (tokenize (remove_comments text)) as [input|]; [|done].
  simpl. intros [= H].
  destruct (parse_tokens_Ok_grammar _ _ H) as (ds & -> & ->). by exists ds.
Qed.

End accepted.

(** X8: among the texts of ASCII characters, those [Parser.parse] accepts
    are exactly the texts that read as a sequence of declarations of the
    grammar whose names differ from each other and which pass their own
    checks; the definitions returned are those of the declarations, in
    their order. *)
Theorem accepted_texts (text : string) (defs : list Definition_) :
  ascii_text text = true →
  Parser.parse text = Some (Ok defs)
  ↔ ∃ ds, reads text ds
          ∧ NoDup (Syntax.d_name <$> ds)
          ∧ Forall passes_own_checks ds
          ∧ defs = definition_of <$> ds.
Proof.
  intros _. split.
  - intros H. destruct (parse_Ok_reads _ _ H) as (ds & Hreads & ->).
    exists ds. split; [done|].
    rewrite (parse_reads _ _ Hreads) in H. injection H as H.
    destruct (proj1 (declare_all_Ok_iff ds ∅ []) (ex_intro _ _ H)) as (? & _ & ?).
    done.
  - intros (ds & Hreads & Hnd & Hok & ->).
    rewrite (parse_reads _ _ Hreads).
    destruct (proj2 (declare_all_Ok_iff ds ∅ [])) as [defs H]; [by split_and!|].
    rewrite H. do 2 f_equal. by apply declare_all_Ok in H.
Qed.

Lemma accepted_texts_witness :
  Parser.parse "Node: [int x]
Leaf(Node): inherit"
  = Some (Ok [mkDefinition "Node" None (FieldList [("x", "int", NEEDED)]);
              mkDefinition "Leaf" (Some "Node") Inherit])
  ↔ ∃ ds, reads "Node: [int x]
Leaf(Node): inherit" ds
          ∧ NoDup (Syntax.d_name <$> ds)
          ∧ Forall passes_own_checks ds
          ∧ [mkDefinition "Node" None (FieldList [("x", "int", NEEDED)]);
             mkDefinition "Leaf" (Some "Node") Inherit]
            = definition_of <$> ds.
Proof.
  apply (accepted_texts "Node: [int x]
Leaf(Node): inherit").
  vm_compute. reflexivity.
Defined.

Section names.
Import Parser Syntax.

Lemma lexable_field_tokens f :
  Forall (λ t, lexable t = true) (field_tokens f) →
  is_name (f_name f) = true ∧ is_name (f_type f) = true.
Proof.
  unfold field_tokens. intros [Hty [_ Hnm]%Forall_app]%Forall_cons.
  apply Forall_cons in Hnm as [Hnm _]. split; [exact Hnm|exact Hty].
Qed.

Lemma well_named_proper d : well_named d → proper_definition (definition_of d).
Proof.
  unfold well_named, declaration_tokens.
  intros [Hn [Hp Hb]%Forall_app]%Forall_cons.
  split_and!; simpl.
  - done.
  - intros p Heq. rewrite Heq in Hp.
    by apply Forall_cons in Hp as [_ [? _]%Forall_cons].
  - intros li Hli. destruct (d_body d) as [| |first more tc|]; simpl in Hli;
      try (injection Hli as <-; by constructor); [|done].
    injection Hli as <-. cbn [body_tokens app] in Hb.
    apply Forall_cons in Hb as [_ [_ Hb]%Forall_cons].
    apply Forall_app in Hb as [Hfirst [Hmore _]%Forall_app].
    constructor.
    + by apply lexable_field_tokens in Hfirst.
    + apply Forall_fmap, Forall_forall. intros f Hf.
      rewrite Forall_flat_map, Forall_forall in Hmore.
      specialize (Hmore f Hf). apply Forall_cons in Hmore as [_ Hmore].
      by apply lexable_field_tokens in Hmore.
Qed.

(** The declarations of a text that reads as declarations have names the
    lexer returns. *)
Lemma reads_well_named text ds : reads text ds → Forall well_named ds.
Proof.
  unfold reads, tokens. intros H.
  destruct (tokenize_returns (remove_comments text))
    as (l & Hl & ts & tail & -> & Hts & Htail).
  rewrite H in Hl. injection Hl as Hl.
  assert (tail = [] ∧ ts = flat_map declaration_tokens ds) as [-> ->].
  { destruct Htail as [->|(c & rest & -> & _)].
    - split; [done|]. rewrite app_nil_r in Hl.
      assert (Inj (=) (=) Token) as HI by (by intros ?? [=]).
      by apply (inj (fmap Token)) in Hl.
    - exfalso. assert (Illegal (String c rest) ∈ Token <$> flat_map declaration_tokens ds) as Hin.
      { rewrite Hl. apply elem_of_app. right. left. }
      by apply list_elem_of_fmap in Hin as (t & [=] & _). }
  rewrite Forall_flat_map in Hts. done.
Qed.

End names.

(** X9: every name in the definitions [Parser.parse] returns for a text of
    ASCII characters, of a node, of a parent, of a field or of a type, is a
    non-empty run of ASCII letters, digits and underscores that does not
    begin with [inherit]; in particular no parent is the empty text. *)
Theorem parse_returns_names (text : string) (defs : list Definition_) :
  ascii_text text = true →
  Parser.parse text = Some (Ok defs) → Forall proper_definition defs.
Proof.
  intros _ (ds & Hreads & ->)%parse_Ok_reads.
  apply Forall_fmap. eapply Forall_impl; [by eapply reads_well_named|].
  apply well_named_proper.
Qed.

Lemma parse_returns_names_witness :
  Forall proper_definition
    [mkDefinition "Assign" (Some "Statement")
       (FieldList [("target", "expr", NEEDED); ("value", "expr", OPTIONAL)])].
Proof.
  apply (parse_returns_names "Assign(Statement): [expr target, expr? value]").
  - vm_compute. reflexivity.
  - vm_compute. reflexivity.
Defined.

(** ** Names in the generated text and in the messages *)

Section plain.

Lemma plain_char c :
  Chars.is_word c || Ascii.eqb c "," || Ascii.eqb c " " = true →
  Repr.escape Chars.quote c = String c ""
  ∧ Ascii.eqb Chars.quote c = false.
Proof. by destruct c as [[] [] [] [] [] [] [] []]. Qed.

Lemma all_plain_quote s :
  all_plain s = true →
  Repr.contains Chars.quote s = false ∧ Repr.escape_all Chars.quote s = s.
Proof.
  induction s as [|c s IH]; [done|].
  cbn [all_plain Repr.contains Repr.escape_all].
  intros [Hc Hs]%andb_true_iff.
  destruct (plain_char c Hc) as [-> ->]. destruct (IH Hs) as [-> ->]. done.
Qed.

(** [repr] puts such a text between single quotes and changes nothing. *)
Lemma repr_plain s : all_plain s = true → Repr.repr s = "'" +:+ s +:+ "'".
Proof.
  intros [Hq He]%all_plain_quote.
  unfold Repr.repr, Repr.quote_for. rewrite Hq. simpl. by rewrite He.
Qed.

Lemma all_word_plain s : Syntax.all_word s = true → all_plain s = true.
Proof.
  induction s as [|c s IH]; [done|].
  cbn [Syntax.all_word all_plain]. intros [-> Hs]%andb_true_iff.
  by rewrite IH.
Qed.

Lemma is_name_all_word s : Syntax.is_name s = true → Syntax.all_word s = true.
Proof. unfold Syntax.is_name. by intros [[_ ?]%andb_true_iff _]%andb_true_iff. Qed.

Lemma is_name_not_empty s : Syntax.is_name s = true → s ≠ "".
Proof. by intros H ->. Qed.

Lemma all_plain_app s1 s2 :
  all_plain s1 = true → all_plain s2 = true → all_plain (s1 +:+ s2) = true.
Proof.
  induction s1 as [|c s1 IH]; [done|].
  rewrite string_app_cons. cbn [all_plain].
  intros [-> H1]%andb_true_iff H2. by rewrite IH.
Qed.

Lemma all_plain_join l :
  Forall (λ s, Syntax.all_word s = true) l → all_plain (join ", " l) = true.
Proof.
  induction 1 as [|s l Hs Hl IH]; [done|].
  destruct l as [|s' l]; [by apply all_word_plain|].
  change (join ", " (s :: s' :: l)) with (s +:+ ", " +:+ join ", " (s' :: l)).
  apply all_plain_app; [by apply all_word_plain|].
  by apply all_plain_app.
Qed.

Lemma repr_modifier_name m :
  Repr.repr (modifier_name m) = "'" +:+ modifier_name m +:+ "'".
Proof. by destruct m. Qed.

Lemma prettify_field_proper (f : Field) :
  Syntax.is_name f.1.1 = true →
  prettify_field f
  = "            ('" +:+ f.1.1 +:+ "', " +:+ f.1.2 +:+ ", '"
    +:+ modifier_name f.2 +:+ "'),".
Proof.
  destruct f as [[nm ty] m]. simpl. intros Hnm.
  unfold prettify_field.
  rewrite repr_plain by by apply all_word_plain, is_name_all_word.
  rewrite repr_modifier_name.
  by repeat (rewrite string_app_assoc; simpl).
Qed.

Lemma generate_class_proper def :
  proper_definition def →
  SourceGenerator.generate_class def
  = class_header def +:+ nl +:+ plain_body (fields def).
Proof.
  intros (_ & Hp & Hf).
  unfold SourceGenerator.generate_class, class_header.
  assert (SourceGenerator.parent_or_object (parent def)
          = default "object" (parent def)) as ->.
  { destruct (parent def) as [p|]; [|done]. simpl.
    rewrite bool_decide_eq_false_2; [done|].
    by apply is_name_not_empty, Hp. }
  rewrite !string_app_assoc.
  repeat (apply (f_equal (String.append _))).
  destruct (fields def) as [li|]; [|done].
  specialize (Hf li eq_refl). unfold plain_body.
  rewrite ?string_app_assoc.
  repeat (apply (f_equal (String.append _))).
  destruct li as [|f li]; [done|].
  unfold _prettify_list. apply (f_equal (join nl)).
  apply (f_equal2 app); [reflexivity|].
  apply (f_equal2 app); [|reflexivity].
  apply Forall_fmap_ext_1. eapply Forall_impl; [exact Hf|].
  intros g [Hg _]. by apply prettify_field_proper.
Qed.

End plain.
(** X10: for a definition returned by [Parser.parse], the class generated
    has the name and the parent of the definition in its header, [object]
    when there is no parent, and writes each field as
    [('name', type, 'MODIFIER'),] with the name between plain single
    quotes: nothing in a name needs escaping, and no parent is empty. *)
Theorem generated_class_of_parsed (text : string) (defs : list Definition_)
    (def : Definition_) :
  Parser.parse text = Some (Ok defs) →
  def ∈ defs →
  SourceGenerator.generate_class def
  = "class " +:+ name def +:+ "(" +:+ default "object" (parent def) +:+ "):" +:+ nl
    +:+ match fields def with
        | Inherit => "    pass"
        | FieldList li =>
            "    @fields_decorator" +:+ nl
            +:+ "    def _fields(cls):" +:+ nl
            +:+ "        return "
            +:+ match li with
                | [] => "[]"
                | _ =>
                    join nl
                      (["["]
                       ++ ((λ f : Field,
                              "            ('" +:+ f.1.1 +:+ "', " +:+ f.1.2
                              +:+ ", '" +:+ modifier_name f.2 +:+ "'),") <$> li)
                       ++ ["        ]"])
                end
        end.
Proof.
  intros Hparse Hdef.
  destruct (parse_Ok_reads _ _ Hparse) as (ds & Hreads & ->).
  apply list_elem_of_fmap in Hdef as (d & -> & Hd).
  pose proof (reads_well_named _ _ Hreads) as Hall.
  rewrite Forall_forall in Hall.
  rewrite (generate_class_proper _ (well_named_proper d (Hall d Hd))).
  unfold class_header. by rewrite !string_app_assoc.
Qed.

Lemma generated_class_of_parsed_witness :
  SourceGenerator.generate_class
    (mkDefinition "Assign" (Some "Statement")
       (FieldList [("target", "expr", NEEDED); ("value", "expr", OPTIONAL)]))
  = "class Assign(Statement):
    @fields_decorator
    def _fields(cls):
        return [
            ('target', expr, 'NEEDED'),
            ('value', expr, 'OPTIONAL'),
        ]".
Proof.
  apply (generated_class_of_parsed
           "Leaf
Assign(Statement): [expr target, expr? value]"
           [mkDefinition "Leaf" None (FieldList []);
            mkDefinition "Assign" (Some "Statement")
              (FieldList [("target", "expr", NEEDED); ("value", "expr", OPTIONAL)])]
           (mkDefinition "Assign" (Some "Statement")
              (FieldList [("target", "expr", NEEDED); ("value", "expr", OPTIONAL)]))).
  - vm_compute. reflexivity.
  - right. left.
Defined.

(** X11: for names of word characters the three messages of
    [p_declaration] carry the names between plain single quotes, the
    repeated attributes separated by a comma and a space, [attributes] in
    the plural when more than one is listed. *)
Theorem messages_on_names (n : string) (dups : list string) :
  Syntax.all_word n = true →
  Forall (λ s, Syntax.all_word s = true) dups →
  message (MultipleDeclarationsOfName n)
  = Some ("Multiple declarations of name '" +:+ n +:+ "'")
  ∧ message (InheritingWithoutParent n)
    = Some ("Inheriting nodes need parents to inherit from. See definition of '"
            +:+ n +:+ "'")
  ∧ message (MultipleDeclarationsOfAttributes n dups)
    = Some ("Multiple declarations in '" +:+ n +:+ "' of attribute"
            +:+ (if bool_decide (1 < length dups) then "s" else "")
            +:+ " '" +:+ join ", " dups +:+ "'").
Proof.
  intros Hn Hdups. unfold message.
  rewrite (repr_plain n) by by apply all_word_plain.
  rewrite (repr_plain (join ", " dups)) by by apply all_plain_join.
  split_and!; f_equal; rewrite ?string_app_assoc; reflexivity.
Qed.

Lemma messages_on_names_witness :
  message (MultipleDeclarationsOfName "Pair")
  = Some ("Multiple declarations of name '" +:+ "Pair" +:+ "'")
  ∧ message (InheritingWithoutParent "Pair")
    = Some ("Inheriting nodes need parents to inherit from. See definition of '"
            +:+ "Pair" +:+ "'")
  ∧ message (MultipleDeclarationsOfAttributes "Pair" ["x"; "y"])
    = Some ("Multiple declarations in '" +:+ "Pair" +:+ "' of attribute"
            +:+ (if bool_decide (1 < length ["x"; "y"]) then "s" else "")
            +:+ " '" +:+ join ", " ["x"; "y"] +:+ "'").
Proof.
  apply (messages_on_names "Pair" ["x"; "y"]).
  - reflexivity.
  - repeat constructor.
Defined.

(** ** Runs of [generate] *)


(** X12: whatever the update flag and however the run ends, [generate]
    removes no file, and the only files whose content can differ after
    the run are the output files of the declaration files listed; a file
    whose name does not end in [y], a declaration file in particular, is
    left as it was. *)
Theorem generate_frame (src : string) (out : option string) (update : bool)
    (listing : list string) (writable : string → bool)
    (fs : gmap string string) (path : string) :
  (is_Some (fs !! path) →
   is_Some ((generate src out update listing writable fs).1 !! path))
  ∧ ((generate src out update listing writable fs).1 !! path ≠ fs !! path →
     ∃ fname, fname ∈ listing ∧ endswith fname ".tree" = true
              ∧ path = outfile_name (default src out) fname)
  ∧ (last_char path ≠ Some "y"%char →
     (generate src out update listing writable fs).1 !! path = fs !! path).
Proof.
  assert ((generate src out update listing writable fs).1 !! path ≠ fs !! path →
          ∃ fname, fname ∈ listing ∧ endswith fname ".tree" = true
                   ∧ path = outfile_name (default src out) fname) as Hch.
  { intros (f & [Hext Hf]%list_elem_of_filter & ->)%convert_all_changes.
    by exists f. }
  split_and!.
  - apply convert_all_keeps.
  - done.
  - intros Hlast.
    destruct (decide ((generate src out update listing writable fs).1 !! path
                      = fs !! path)) as [|Hne]; [done|].
    destruct (Hch Hne) as (f & _ & _ & ->).
    by rewrite outfile_name_last in Hlast.
Qed.

Lemma generate_frame_witness :
  (generate "tree" None true ["nodes.tree"] (λ _, true)
     {[ "tree/nodes.tree" := "Leaf" ]}).1 !! "tree/nodes.tree"
  = ({[ "tree/nodes.tree" := "Leaf" ]} : gmap string string) !! "tree/nodes.tree".
Proof.
  apply (proj2 (proj2 (generate_frame "tree" None true ["nodes.tree"] (λ _, true)
                         {[ "tree/nodes.tree" := "Leaf" ]} "tree/nodes.tree"))).
  vm_compute. discriminate.
Defined.



(** X14: after a run of [generate] without the update flag that ended
    without exception, every declaration file has its output file, and a
    second run without the flag skips them all: it writes nothing and
    raises nothing. *)
Theorem generate_again_without_update (src : string) (out : option string)
    (listing : list string) (writable : string → bool)
    (fs fs' : gmap string string) :
  generate src out false listing writable fs = (fs', None) →
  (∀ fname, fname ∈ listing → endswith fname ".tree" = true →
            is_Some (fs' !! outfile_name (default src out) fname))
  ∧ generate src out false listing writable fs' = (fs', None).
Proof.
  unfold generate. intros H.
  pose proof (convert_all_no_update_exists _ _ _ _ _ _ H) as Hex. split.
  - intros f Hf Hext. apply Hex. by apply list_elem_of_filter.
  - by apply convert_all_skips.
Qed.

Lemma generate_again_without_update_witness :
  (∀ fname, fname ∈ ["nodes.tree"; "notes.txt"] → endswith fname ".tree" = true →
            is_Some ((<[ "tree/nodes.py" :=
                           output_text (SourceGenerator.generate_sources
                                          [mkDefinition "Leaf" None (FieldList [])]) ]>
                        {[ "tree/nodes.tree" := "Leaf" ]} : gmap string string)
                     !! outfile_name (default "tree" None) fname))
  ∧ generate "tree" None false ["nodes.tree"; "notes.txt"] (λ _, true)
      (<[ "tree/nodes.py" :=
            output_text (SourceGenerator.generate_sources
                           [mkDefinition "Leaf" None (FieldList [])]) ]>
         {[ "tree/nodes.tree" := "Leaf" ]})
    = (<[ "tree/nodes.py" :=
            output_text (SourceGenerator.generate_sources
                           [mkDefinition "Leaf" None (FieldList [])]) ]>
         {[ "tree/nodes.tree" := "Leaf" ]}, None).
Proof.
  apply (generate_again_without_update "tree" None ["nodes.tree"; "notes.txt"]
           (λ _, true) {[ "tree/nodes.tree" := "Leaf" ]}).
  vm_compute. reflexivity.
Defined.

(** X15: after a run of [generate] with the update flag that ended without
    exception, a second run with the flag leaves every file byte for byte
    as the first run left it: the declaration files were not touched, so
    the same texts are generated again. *)
Theorem generate_again_with_update (src : string) (out : option string)
    (listing : list string) (writable : string → bool)
    (fs fs' : gmap string string) :
  Forall (λ fname, startswith fname "/" = false) listing →
  generate src out true listing writable fs = (fs', None) →
  generate src out true listing writable fs' = (fs', None).
Proof.
  intros Hrel Hrun. pose proof Hrun as Hrun'. unfold generate in Hrun' |- *.
  apply convert_all_rewrites. intros f Hf.
  destruct (convert_all_update _ _ _ _ _ _ (listing_convertible _ Hrel) Hrun' f Hf)
    as (content & data & Hin & Hp & Hw & Hout).
  exists content, data. split_and!; [|done|done|done].
  rewrite <- Hin.
  destruct (decide (fs' !! infile_name src f = fs !! infile_name src f))
    as [|Hne]; [done|].
  exfalso. apply list_elem_of_filter in Hf as [Hext _].
  pose proof (convert_all_changes src (default src out) writable true
                (filter (λ fname, endswith fname ".tree" = true) listing) fs
                (infile_name src f)) as Hch.
  rewrite Hrun' in Hch. destruct (Hch Hne) as (g & _ & Heq).
  by apply infile_not_outfile in Heq.
Qed.

Lemma generate_again_with_update_witness :
  generate "tree" None true ["nodes.tree"] (λ _, true)
    (<[ "tree/nodes.py" :=
          output_text (SourceGenerator.generate_sources
                         [mkDefinition "Leaf" None (FieldList [])]) ]>
       {[ "tree/nodes.tree" := "Leaf"; "tree/nodes.py" := "# old" ]})
  = (<[ "tree/nodes.py" :=
          output_text (SourceGenerator.generate_sources
                         [mkDefinition "Leaf" None (FieldList [])]) ]>
       {[ "tree/nodes.tree" := "Leaf"; "tree/nodes.py" := "# old" ]}, None).
Proof.
  apply (generate_again_with_update "tree" None ["nodes.tree"] (λ _, true)
           {[ "tree/nodes.tree" := "Leaf"; "tree/nodes.py" := "# old" ]}).
  - repeat constructor.
  - vm_compute. reflexivity.
Defined.

(** X16: the output file of a declaration file [stem.tree] of the listing
    is [stem.py] in the output directory, and two different declaration
    files never share their output file. *)
Theorem outfile_names (out stem : string) :
  startswith (stem +:+ ".tree") "/" = false →
  outfile_name out (stem +:+ ".tree")
  = (if bool_decide (out = "") || endswith out "/" then out else out +:+ "/")
    +:+ stem +:+ ".py"
  ∧ ∀ other,
      endswith other ".tree" = true → startswith other "/" = false →
      outfile_name out other = outfile_name out (stem +:+ ".tree") →
      other = stem +:+ ".tree".
Proof.
  intros Hrel. split.
  - unfold outfile_name.
    rewrite (drop_last_app stem ".tree" : drop_last 5 (stem +:+ ".tree") = stem).
    apply path_join_relative.
    destruct stem as [|c stem]; [done|].
    by rewrite !string_app_cons, !startswith_cons in *.
  - intros other Hext Hrel' Heq.
    apply (outfile_name_inj out); try done. apply endswith_app.
Qed.

Lemma outfile_names_witness :
  outfile_name "py2c/tree" ("nodes" +:+ ".tree")
  = (if bool_decide ("py2c/tree" = "") || endswith "py2c/tree" "/"
     then "py2c/tree" else "py2c/tree" +:+ "/")
    +:+ "nodes" +:+ ".py"
  ∧ ∀ other,
      endswith other ".tree" = true → startswith other "/" = false →
      outfile_name "py2c/tree" other = outfile_name "py2c/tree" ("nodes" +:+ ".tree") →
      other = "nodes" +:+ ".tree".
Proof.
  apply (outfile_names "py2c/tree" "nodes").
  vm_compute. reflexivity.
Defined.

(** ** Which error is raised *)

(** X17: in a text that reads as declarations, when the declarations
    before one are accepted and that one fails a check, its error is the
    outcome of the whole parse, whatever follows it: the error of the
    name if the name has been declared before, even when the fields or the
    parent are at fault too, otherwise the error of its repeated fields or
    of its missing parent. *)
Theorem first_violation_decides (text : string)
    (pre : list Syntax.declaration) (d : Syntax.declaration)
    (post : list Syntax.declaration) (defs : list Definition_) :
  reads text (pre ++ d :: post) →
  Parser.parse_tokens (Syntax.tokens pre) = Ok defs →
  ¬ (Syntax.d_name d ∉ Syntax.d_name <$> pre ∧ passes_own_checks d) →
  Parser.parse text = Some (Raise (violation pre d)).
Proof.
  intros Hreads Hpre Hbad.
  rewrite (reads_parse_tokens _ _ Hreads), (parse_tokens_next _ _ _ _ Hpre).
  f_equal. unfold violation. case_bool_decide as Hin.
  - rewrite p_declaration_seen; [done|]. by apply elem_of_list_to_set.
  - rewrite p_declaration_fresh by by apply not_elem_of_names.
    assert (¬ passes_own_checks d) as Hnot by tauto.
    unfold passes_own_checks in Hnot.
    destruct (Syntax.d_body d) as [| |first more tc|] eqn:Hb.
    + destruct Hnot. constructor.
    + destruct Hnot. constructor.
    + cbn [Syntax.fields_of Syntax.body_fields] in *.
      destruct (Parser.duplicated_fields _) eqn:E; [|done].
      destruct Hnot. rewrite <- field_name_field_of.
      by apply duplicated_fields_nil.
    + cbn [Syntax.fields_of]. destruct (Syntax.d_parent d); [|done].
      destruct Hnot. by eexists.
Qed.

Lemma first_violation_decides_witness :
  Parser.parse "A
A: [int x, int x]
B: inherit"
  = Some (Raise (violation
                   [Syntax.mkDeclaration "A" None Syntax.NoClause]
                   (Syntax.mkDeclaration "A" None
                      (Syntax.Fields (Syntax.mkField "int" Syntax.NoSuffix "x")
                         [Syntax.mkField "int" Syntax.NoSuffix "x"] false)))).
Proof.
  apply (first_violation_decides _
           [Syntax.mkDeclaration "A" None Syntax.NoClause]
           (Syntax.mkDeclaration "A" None
              (Syntax.Fields (Syntax.mkField "int" Syntax.NoSuffix "x")
                 [Syntax.mkField "int" Syntax.NoSuffix "x"] false))
           [Syntax.mkDeclaration "B" None Syntax.InheritForm]
           [mkDefinition "A" None (FieldList [])]).
  - vm_compute. reflexivity.
  - reflexivity.
  - intros [H _]. apply H. left.
Defined.


(** ** The lines of the generated sources *)

Section class_lines.

Lemma split_lines_append a b :
  split_lines (a +:+ nl +:+ b) = split_lines a ++ split_lines b.
Proof.
  induction a as [|c a IH]; [done|].
  rewrite string_app_cons. cbn [split_lines]. rewrite IH.
  destruct (Ascii.eqb c Chars.newline); [done|].
  by destruct (split_lines_cons a) as (l & m & ->).
Qed.

Lemma class_lines_append a b :
  class_lines (a +:+ nl +:+ b) = class_lines a ++ class_lines b.
Proof. unfold class_lines. by rewrite split_lines_append, filter_app. Qed.

Lemma class_lines_line l :
  one_line l →
  class_lines l = if startswith l "class " then [l] else [].
Proof.
  intros Hl. unfold class_lines. rewrite split_lines_line by done.
  rewrite filter_cons, filter_nil. destruct (startswith l "class "); [|done].
  by rewrite decide_True.
Qed.

Lemma class_lines_join ls :
  ls ≠ [] →
  Forall (λ l, one_line l ∧ startswith l "class " = false) ls →
  class_lines (join nl ls) = [].
Proof.
  induction ls as [|l ls IH]; [done|]. intros _ [[Hl Hc] Hls]%Forall_cons.
  destruct ls as [|l' ls].
  - simpl. by rewrite class_lines_line, Hc.
  - change (join nl (l :: l' :: ls)) with (l +:+ nl +:+ join nl (l' :: ls)).
    by rewrite class_lines_append, class_lines_line, Hc, IH.
Qed.

Lemma one_line_app a b : one_line a → one_line b → one_line (a +:+ b).
Proof. unfold one_line. rewrite contains_app. by intros -> ->. Qed.

Lemma all_word_one_line s : Syntax.all_word s = true → one_line s.
Proof.
  unfold one_line. induction s as [|c s IH]; [done|].
  cbn [Syntax.all_word Repr.contains]. intros [Hc Hs]%andb_true_iff.
  destruct (is_word_facts c Hc) as (_ & Hnl & _).
  rewrite Ascii.eqb_sym in Hnl. by rewrite Hnl, IH.
Qed.

Lemma is_name_one_line s : Syntax.is_name s = true → one_line s.
Proof. intros H. by apply all_word_one_line, is_name_all_word. Qed.

Lemma plain_field_line_one_line f :
  Syntax.is_name f.1.1 = true ∧ Syntax.is_name f.1.2 = true →
  one_line (plain_field_line f) ∧ startswith (plain_field_line f) "class " = false.
Proof.
  intros [Hnm Hty]. split; [|done]. unfold plain_field_line.
  repeat apply one_line_app; try done; try by apply is_name_one_line.
  by destruct f.2.
Qed.

Lemma join_prepend s x xs : s +:+ join nl (x :: xs) = join nl ((s +:+ x) :: xs).
Proof. destruct xs; [done|]. simpl. by rewrite string_app_assoc. Qed.

Lemma class_lines_plain_body def :
  proper_definition def → class_lines (plain_body (fields def)) = [].
Proof.
  intros (_ & _ & Hf). destruct (fields def) as [li|]; [|done].
  specialize (Hf li eq_refl). unfold plain_body.
  rewrite !class_lines_append.
  rewrite (class_lines_line "    @fields_decorator") by done.
  rewrite (class_lines_line "    def _fields(cls):") by done.
  cbn [startswith strip_prefix app]. 
  destruct li as [|f li]; [done|].
  change (["["] ++ ?x) with ("[" :: x). rewrite join_prepend.
  apply class_lines_join; [done|].
  constructor; [done|]. apply Forall_app. split.
  - apply Forall_fmap. eapply Forall_impl; [exact Hf|].
    intros g. apply plain_field_line_one_line.
  - by constructor.
Qed.

Lemma class_lines_generate_class def :
  proper_definition def →
  class_lines (SourceGenerator.generate_class def) = [class_header def].
Proof.
  intros Hdef. rewrite generate_class_proper by done.
  rewrite class_lines_append, class_lines_plain_body by done.
  rewrite class_lines_line; [by rewrite app_nil_r|].
  destruct Hdef as (Hn & Hp & _). unfold class_header.
  repeat apply one_line_app; try done; try by apply is_name_one_line.
  destruct (parent def) as [p|]; [|done]. by apply is_name_one_line, Hp.
Qed.

Lemma class_lines_nl b : class_lines (nl +:+ b) = class_lines b.
Proof. exact (class_lines_append "" b). Qed.

Lemma class_lines_generate_sources defs :
  Forall proper_definition defs →
  class_lines (SourceGenerator.generate_sources defs) = class_header <$> defs.
Proof.
  unfold SourceGenerator.generate_sources.
  induction 1 as [|def defs Hdef Hdefs IH]; [done|].
  destruct defs as [|def' defs].
  - simpl. by rewrite class_lines_generate_class.
  - rewrite (fmap_cons class_header def). rewrite <- IH. cbn [map].
    change (join ?sep (?x :: ?y :: ?l)) with (x +:+ sep +:+ join sep (y :: l)).
    rewrite !string_app_assoc.
    rewrite class_lines_append, !class_lines_nl.
    by rewrite class_lines_generate_class.
Qed.

End class_lines.

(** X19: in the sources generated for the definitions of a text, the lines
    that begin with [class] are the headers of the definitions, one for
    each and in their order; no other line, of a body or between two
    classes, begins a class. *)
Theorem one_class_per_definition (text : string) (defs : list Definition_) :
  Parser.parse text = Some (Ok defs) →
  class_lines (SourceGenerator.generate_sources defs)
  = (λ def, "class " +:+ name def +:+ "(" +:+ default "object" (parent def)
            +:+ "):") <$> defs.
Proof.
  intros (ds & Hreads & ->)%parse_Ok_reads.
  apply class_lines_generate_sources.
  apply Forall_fmap. eapply Forall_impl; [by eapply reads_well_named|].
  apply well_named_proper.
Qed.

Lemma one_class_per_definition_witness :
  class_lines (SourceGenerator.generate_sources
                 [mkDefinition "Node" None (FieldList [("x", "int", NEEDED)]);
                  mkDefinition "Leaf" (Some "Node") Inherit])
  = (λ def, "class " +:+ name def +:+ "(" +:+ default "object" (parent def)
            +:+ "):")
      <$> [mkDefinition "Node" None (FieldList [("x", "int", NEEDED)]);
           mkDefinition "Leaf" (Some "Node") Inherit].
Proof.
  apply (one_class_per_definition "Node: [int x]
Leaf(Node): inherit").
  vm_compute. reflexivity.
Defined.

(** ** The layout of the generated text *)

Section layout.
















End layout.



